(** * Tic Tac Toe: the game engine of [App.js]

    A shallow embedding of the game logic of
    [tic_tac_toe_frontend/src/App.js]: the win detector
    [calculateWinner], the React state of [App] (the move history and
    the current step), the values derived from it on each render, and
    the three handlers [handleSquareClick], [jumpTo] and [restart]; and
    of what the components [Square], [Board], [MoveHistory] and [App]
    render, as a tree of elements with their props and click handlers.

    JavaScript values are modelled as the code uses them: a square holds
    ['X'], ['O'] or [null]; reading an array outside its elements gives
    [undefined]; writing outside its elements extends the array or adds a
    property.  Numbers used as indices are integer valued and modelled
    as [Z]. *)

From stdpp Require Import gmap strings list pretty.

Local Open Scope Z_scope.

(** ** JavaScript values held by a square *)

Inductive mark := X | O.

(** The contents of a square: the strings ['X'] and ['O'], [null], and
    [undefined] (what a read outside the array, or of a hole, gives). *)
Inductive value :=
  | JNull
  | JUndefined
  | JMark (m : mark).

Global Instance mark_eq_dec : EqDecision mark.
Proof. solve_decision. Defined.

Global Instance value_eq_dec : EqDecision value.
Proof. solve_decision. Defined.

(** Truthiness, as used by [&&], [||], [!] and [if]: [null] and
    [undefined] are falsy, the non-empty strings ['X'] and ['O'] are
    truthy. *)
Definition truthy (v : value) : bool :=
  match v with
  | JMark _ => true
  | JNull | JUndefined => false
  end.

(** Strict equality [===] on these values. *)
Definition strict_eq (v w : value) : bool := bool_decide (v = w).

(** String conversion inside a template literal. *)
Definition toString (v : value) : string :=
  match v with
  | JMark X => "X"
  | JMark O => "O"
  | JNull => "null"
  | JUndefined => "undefined"
  end.

(** ** JavaScript arrays of squares

    An array has its indexed elements and, possibly, further own
    properties: a key that is not an array index (here: a negative
    integer, or one from [2^32 - 1] on) names an ordinary property and
    leaves [length] alone.  Holes are kept as [JUndefined] elements: a
    hole reads as [undefined], [slice] keeps it, and [every] skips it,
    which for the callback [s !== null] is the same as accepting it. *)
Record jsarray := JsArray {
  items : list value;
  props : gmap Z value;
}.

Global Instance jsarray_eq_dec : EqDecision jsarray.
Proof. solve_decision. Defined.

Definition is_array_index (i : Z) : bool :=
  (0 <=? i) && (i <? 2 ^ 32 - 1).

(** [Array(n).fill(v)] *)
Definition array_fill (n : nat) (v : value) : jsarray :=
  {| items := replicate n v; props := ∅ |}.

(** [a[i]] *)
Definition aget (a : jsarray) (i : Z) : value :=
  if is_array_index i
  then default JUndefined (items a !! Z.to_nat i)
  else default JUndefined (props a !! i).

(** [a[i] = v] *)
Definition aset (a : jsarray) (i : Z) (v : value) : jsarray :=
  if is_array_index i
  then
    let n := Z.to_nat i in
    if decide (n < length (items a))%nat
    then {| items := <[n := v]> (items a); props := props a |}
    else {| items := items a ++ replicate (n - length (items a)) JUndefined ++ [v];
            props := props a |}
  else {| items := items a; props := <[i := v]> (props a) |}.

(** [a.slice()]: a fresh array with the indexed elements only. *)
Definition slice (a : jsarray) : jsarray :=
  {| items := items a; props := ∅ |}.

(** [a.every(f)] *)
Definition every (f : value → bool) (a : jsarray) : bool :=
  forallb f (items a).

(** ** The win detector *)

Record winnerInfo := WinnerInfo {
  winner_of : value;
  line_of : list Z;
}.

Global Instance winnerInfo_eq_dec : EqDecision winnerInfo.
Proof. solve_decision. Defined.

Definition lines : list (Z * Z * Z) :=
  [ (* Rows *)
    (0, 1, 2); (3, 4, 5); (6, 7, 8);
    (* Cols *)
    (0, 3, 6); (1, 4, 7); (2, 5, 8);
    (* Diags *)
    (0, 4, 8); (2, 4, 6) ].

(** The test of the loop body:
    [squares[a] && squares[a] === squares[b] && squares[a] === squares[c]]. *)
Definition line_complete (squares : jsarray) (l : Z * Z * Z) : bool :=
  let '(a, b, c) := l in
  truthy (aget squares a)
  && strict_eq (aget squares a) (aget squares b)
  && strict_eq (aget squares a) (aget squares c).

(** The [for ... of] loop over the remaining lines, with its early
    [return]. *)
Fixpoint scan_lines (squares : jsarray) (ls : list (Z * Z * Z)) : option winnerInfo :=
  match ls with
  | [] => None
  | (a, b, c) :: rest =>
      if line_complete squares (a, b, c)
      then Some {| winner_of := aget squares a; line_of := [a; b; c] |}
      else scan_lines squares rest
  end.

Definition calculateWinner (squares : jsarray) : option winnerInfo :=
  scan_lines squares lines.

(** ** The state of [App]

    One entry of the history: the board after a move and the index of
    that move ([null] for the start of the game). *)
Record snapshot := Snapshot {
  squares : jsarray;
  lastMove : option Z;
}.

Global Instance snapshot_eq_dec : EqDecision snapshot.
Proof. solve_decision. Defined.

(** The two [useState] cells of [App].  The history array is only ever
    built by [slice] and [concat], so it has no holes and no extra
    properties: a list. *)
Record state := State {
  history : list snapshot;
  currentStep : Z;
}.

Global Instance state_eq_dec : EqDecision state.
Proof. solve_decision. Defined.

Definition empty_snapshot : snapshot :=
  {| squares := array_fill 9 JNull; lastMove := None |}.

(** The initial values given to [useState]. *)
Definition initial_state : state :=
  {| history := [empty_snapshot]; currentStep := 0 |}.

(** [history[i]], [None] standing for [undefined]. *)
Definition history_get {A} (h : list A) (i : Z) : option A :=
  if 0 <=? i then h !! Z.to_nat i else None.

(** [h.slice(0, e)]: a negative end counts from the end of the array. *)
Definition history_slice0 {A} (h : list A) (e : Z) : list A :=
  if e <? 0
  then take (length h - Z.to_nat (- e)) h
  else take (Z.to_nat e) h.

(** ** Values derived on each render *)

(** [const current = history[currentStep]] *)
Definition current (st : state) : option snapshot :=
  history_get (history st) (currentStep st).

(** [const xIsNext = currentStep % 2 === 0]; [%] takes the sign of the
    dividend, as [Z.rem] does. *)
Definition xIsNext (currentStep : Z) : bool :=
  Z.rem currentStep 2 =? 0.

(** The mark written by the next move: [xIsNext ? 'X' : 'O']. *)
Definition nextMark (currentStep : Z) : mark :=
  if xIsNext currentStep then X else O.

(** [const winnerInfo = useMemo(() => calculateWinner(current.squares),
    [current.squares])] is [calculateWinner] of the current board, and
    [const winner = winnerInfo ? winnerInfo.winner : null]. *)
Definition winner_at (squares : jsarray) : value :=
  match calculateWinner squares with
  | Some w => winner_of w
  | None => JNull
  end.

(** [const winningLine = winnerInfo ? winnerInfo.line : null] *)
Definition winningLine_at (squares : jsarray) : option (list Z) :=
  line_of <$> calculateWinner squares.

(** [const isDraw = !winner && current.squares.every((s) => s !== null)] *)
Definition isDraw_at (squares : jsarray) : bool :=
  negb (truthy (winner_at squares))
  && every (λ s, negb (strict_eq s JNull)) squares.

(** The [if]/[else if]/[else] that sets [statusText]. *)
Definition statusText_at (currentStep : Z) (squares : jsarray) : string :=
  if truthy (winner_at squares)
  then "Winner: " +:+ toString (winner_at squares)
  else if isDraw_at squares
  then "Draw! No moves left."
  else "Next Player: " +:+ toString (JMark (nextMark currentStep)).

(** The derived values as functions of the state.  [None] is the
    [TypeError] of [current.squares] when [history[currentStep]] is
    [undefined]: the render fails and nothing below it is defined. *)
Definition winner (st : state) : option value :=
  winner_at ∘ squares <$> current st.
Definition winningLine (st : state) : option (option (list Z)) :=
  winningLine_at ∘ squares <$> current st.
Definition isDraw (st : state) : option bool :=
  isDraw_at ∘ squares <$> current st.
Definition statusText (st : state) : option string :=
  statusText_at (currentStep st) ∘ squares <$> current st.

(** ** The handlers

    A handler is a closure of one render: it reads [history],
    [currentStep] and the derived values of the state it was rendered
    for, and its two [set...] calls together give the next state. *)

(** [handleSquareClick(index)].  [None]: the render this handler would
    belong to has failed (see [winner]). *)
Definition handleSquareClick (st : state) (index : Z) : option state :=
  cur ← current st;
  (* Ignore click if game over or cell taken *)
  if truthy (winner_at (squares cur)) || truthy (aget (squares cur) index)
  then Some st
  else
    let nextSquares :=
      aset (slice (squares cur)) index (JMark (nextMark (currentStep st))) in
    (* Discard any "future" moves if time-traveled *)
    let truncatedHistory := history_slice0 (history st) (currentStep st + 1) in
    Some {| history :=
              truncatedHistory ++ [ {| squares := nextSquares; lastMove := Some index |} ];
            currentStep := Z.of_nat (length truncatedHistory) |}.

(** [jumpTo(step)] *)
Definition jumpTo (st : state) (step : Z) : state :=
  {| history := history st; currentStep := step |}.

(** [restart()] *)
Definition restart (st : state) : state :=
  {| history := [ {| squares := array_fill 9 JNull; lastMove := None |} ];
     currentStep := 0 |}.

(** ** The data model of the specification *)

(** A cell is empty ([null]) or holds a mark; [undefined] is no cell. *)
Definition is_cell (v : value) : Prop := v ≠ JUndefined.

(** A board: exactly 9 cells, and nothing else stored on the array. *)
Definition is_board (a : jsarray) : Prop :=
  length (items a) = 9%nat ∧ props a = ∅ ∧ Forall is_cell (items a).

(** A well-formed engine state: every stored board is a board and the
    cursor addresses a stored snapshot. *)
Definition wf_state (st : state) : Prop :=
  0 ≤ currentStep st < Z.of_nat (length (history st))
  ∧ Forall (λ s, is_board (squares s)) (history st).

Global Instance is_cell_dec v : Decision (is_cell v).
Proof. unfold is_cell. apply _. Defined.

Global Instance is_board_dec a : Decision (is_board a).
Proof. unfold is_board. apply _. Defined.

Global Instance wf_state_dec st : Decision (wf_state st).
Proof. unfold wf_state. apply _. Defined.

(** "All three cells are equal and non-empty", in the words of the
    specification. *)
Definition qualifies (board : jsarray) (l : Z * Z * Z) : Prop :=
  let '(a, b, c) := l in
  aget board a ≠ JNull
  ∧ aget board a = aget board b
  ∧ aget board a = aget board c.

(** Every index of a line is a cell index. *)
Definition line_in_range (l : Z * Z * Z) : Prop :=
  let '(a, b, c) := l in 0 ≤ a ≤ 8 ∧ 0 ≤ b ≤ 8 ∧ 0 ≤ c ≤ 8.

(** The status of the specification's [getStatus], and the text the
    component shows for each. *)
Inductive status :=
  | Winner (m : mark)
  | Draw
  | NextPlayer (m : mark).

Definition status_text (s : status) : string :=
  match s with
  | Winner m => "Winner: " +:+ toString (JMark m)
  | Draw => "Draw! No moves left."
  | NextPlayer m => "Next Player: " +:+ toString (JMark m)
  end.

(** "All 9 cells non-empty". *)
Definition board_full (board : jsarray) : Prop :=
  ∀ i, 0 ≤ i ≤ 8 → aget board i ≠ JNull.

(** "Turn owner = X if cursor is even else O". *)
Definition turn_owner (st : state) : mark :=
  if Z.even (currentStep st) then X else O.

(** [getStatus] in the words of the specification: the winner if the
    detector finds one, else a draw if the board is full, else the
    player to move. *)
Inductive getStatus_spec (st : state) (cur : snapshot) : status → Prop :=
  | status_winner m l :
      calculateWinner (squares cur) = Some {| winner_of := JMark m; line_of := l |} →
      getStatus_spec st cur (Winner m)
  | status_draw :
      calculateWinner (squares cur) = None →
      board_full (squares cur) →
      getStatus_spec st cur Draw
  | status_next :
      calculateWinner (squares cur) = None →
      ¬ board_full (squares cur) →
      getStatus_spec st cur (NextPlayer (turn_owner st)).

(** ** Sample boards and states *)

Definition board_of (cells : list value) : jsarray :=
  {| items := cells; props := ∅ |}.

(** X has completed the top row and the left column is still open. *)
Definition board_x_top_row : jsarray :=
  board_of [JMark X; JMark X; JMark X;
            JNull;   JMark O; JMark O;
            JNull;   JNull;   JNull].

(** X at 0, O at 4, and the cursor moved back to step 1. *)
Definition state_rewound : state :=
  {| history :=
       [ empty_snapshot;
         {| squares := board_of [JMark X; JNull; JNull; JNull; JNull; JNull; JNull; JNull; JNull];
            lastMove := Some 0 |};
         {| squares := board_of [JMark X; JNull; JNull; JNull; JMark O; JNull; JNull; JNull; JNull];
            lastMove := Some 4 |} ];
     currentStep := 1 |}.

(** A game X has won with its third move on the top row. *)
Definition state_won : state :=
  {| history :=
       [ empty_snapshot;
         {| squares := board_of [JMark X; JNull; JNull; JNull; JNull; JNull; JNull; JNull; JNull];
            lastMove := Some 0 |};
         {| squares := board_of [JMark X; JNull; JNull; JNull; JMark O; JNull; JNull; JNull; JNull];
            lastMove := Some 4 |};
         {| squares := board_of [JMark X; JMark X; JNull; JNull; JMark O; JNull; JNull; JNull; JNull];
            lastMove := Some 1 |};
         {| squares := board_of [JMark X; JMark X; JNull; JNull; JMark O; JMark O; JNull; JNull; JNull];
            lastMove := Some 5 |};
         {| squares := board_x_top_row; lastMove := Some 2 |} ];
     currentStep := 5 |}.

(** The state after a sequence of clicks from the start of a game. *)
Definition play (moves : list Z) : option state :=
  foldl (λ o i, o ≫= λ st, handleSquareClick st i) (Some initial_state) moves.

(** ** Reachable states

    One valid operation: a click on a cell of the grid, a jump to a
    step of the history list, or a restart. *)
Inductive step (st : state) : state → Prop :=
  | step_place i st' :
      0 ≤ i ≤ 8 → handleSquareClick st i = Some st' → step st st'
  | step_jump k :
      0 ≤ k < Z.of_nat (length (history st)) → step st (jumpTo st k)
  | step_restart :
      step st (restart st).

Inductive reachable : state → Prop :=
  | reachable_init : reachable initial_state
  | reachable_step st st' : reachable st → step st st' → reachable st'.

(** Snapshot [s'] at step [n + 1] is snapshot [s] at step [n] with one
    empty cell, the one named by [lastMove], given the mark of the
    player who moves at step [n]. *)
Definition one_move (n : nat) (s s' : snapshot) : Prop :=
  ∃ i, 0 ≤ i ≤ 8
       ∧ lastMove s' = Some i
       ∧ items (squares s) !! Z.to_nat i = Some JNull
       ∧ items (squares s')
         = <[Z.to_nat i := JMark (nextMark (Z.of_nat n))]> (items (squares s)).

(** The invariant of the engine. *)
Definition chain_inv (st : state) : Prop :=
  wf_state st
  ∧ history st !! 0%nat = Some empty_snapshot
  ∧ ∀ (n : nat) s s',
      history st !! n = Some s → history st !! S n = Some s' → one_move n s s'.

(** The number of cells of a board that satisfy [P]. *)
Definition count_cells (P : value → Prop) `{∀ v, Decision (P v)}
    (board : jsarray) : nat :=
  length (filter P (items board)).

(** What one cell contributes to [count_cells]. *)
Definition hit (P : value → Prop) `{∀ v, Decision (P v)} (v : value) : nat :=
  if decide (P v) then 1%nat else 0%nat.

(** ** The arrays as objects

    The model above treats a board as a value.  In the program a board
    is an array object, reached through references that the snapshots
    of the history share from one render to the next.  This second
    model keeps the arrays in a store and the references in the
    snapshots, so that a write to an array shows in every snapshot that
    holds it.  The only assignment to an object in [App] is
    [nextSquares[index] = ...]; snapshot objects and history arrays are
    built and never assigned to, so they stay values here. *)
Module Store.

(** A reference to an array: its position in the store.  Allocation
    appends. *)
Definition ref := nat.

Record snapshot := Snapshot {
  squares : ref;
  lastMove : option Z;
}.

Record state := State {
  heap : list jsarray;
  history : list snapshot;
  currentStep : Z;
}.

(** [useState([{ squares: Array(9).fill(null), lastMove: null }])] and
    [useState(0)] *)
Definition initial_state : state :=
  {| heap := [array_fill 9 JNull];
     history := [ {| squares := 0%nat; lastMove := None |} ];
     currentStep := 0 |}.

Definition current (st : state) : option snapshot :=
  history_get (history st) (currentStep st).

(** [handleSquareClick(index)].  [None] as in the value model; a
    reference always names an allocated array, so the second lookup
    does not fail in a state the program can be in. *)
Definition handleSquareClick (st : state) (index : Z) : option state :=
  cur ← current st;
  board ← heap st !! squares cur;
  if truthy (winner_at board) || truthy (aget board index)
  then Some st
  else
    (* const nextSquares = current.squares.slice(): a new array *)
    let nextSquares : ref := length (heap st) in
    let heap1 := heap st ++ [slice board] in
    (* nextSquares[index] = xIsNext ? 'X' : 'O': a write through the reference *)
    let heap2 :=
      alter (λ a, aset a index (JMark (nextMark (currentStep st)))) nextSquares heap1 in
    let truncatedHistory := history_slice0 (history st) (currentStep st + 1) in
    Some {| heap := heap2;
            history :=
              truncatedHistory ++ [ {| squares := nextSquares; lastMove := Some index |} ];
            currentStep := Z.of_nat (length truncatedHistory) |}.

Definition jumpTo (st : state) (step : Z) : state :=
  {| heap := heap st; history := history st; currentStep := step |}.

(** [restart()]: [Array(9).fill(null)] is a new array. *)
Definition restart (st : state) : state :=
  {| heap := heap st ++ [array_fill 9 JNull];
     history := [ {| squares := length (heap st); lastMove := None |} ];
     currentStep := 0 |}.

Inductive step (st : state) : state → Prop :=
  | step_place i st' :
      0 ≤ i ≤ 8 → handleSquareClick st i = Some st' → step st st'
  | step_jump k :
      0 ≤ k < Z.of_nat (length (history st)) → step st (jumpTo st k)
  | step_restart :
      step st (restart st).

Inductive reachable : state → Prop :=
  | reachable_init : reachable initial_state
  | reachable_step st st' : reachable st → step st st' → reachable st'.

End Store.

(** The store snapshot [hs] holds a reference to the board of [s]. *)
Definition represents_snapshot (heap : list jsarray)
    (hs : Store.snapshot) (s : snapshot) : Prop :=
  heap !! Store.squares hs = Some (squares s)
  ∧ Store.lastMove hs = lastMove s.

(** The store state [hst], with every reference followed, is the value
    state [st]. *)
Definition represents (hst : Store.state) (st : state) : Prop :=
  Store.currentStep hst = currentStep st
  ∧ Forall2 (represents_snapshot (Store.heap hst)) (Store.history hst) (history st).

(** The requirement of the specification on arguments out of range: a
    click on an index outside [0, 8] and a jump to a step outside the
    history leave every stored board with 9 cells and the cursor inside
    the history. *)
Definition out_of_range_keeps_state_well_formed : Prop :=
  ∀ st, wf_state st →
    (∀ i st', ¬ (0 ≤ i ≤ 8) → handleSquareClick st i = Some st' → wf_state st')
    ∧ (∀ k, ¬ (0 ≤ k < Z.of_nat (length (history st))) → wf_state (jumpTo st k)).

(** The snapshot a click on [index] stores when the handler does not
    return early. *)
Definition appended_snapshot (st : state) (cur : snapshot) (index : Z) : snapshot :=
  {| squares := aset (slice (squares cur)) index (JMark (nextMark (currentStep st)));
     lastMove := Some index |}.

(** ** Further notions used below *)

(** No snapshot before the last one of the history is a won position. *)
Definition won_only_last (st : state) : Prop :=
  ∀ (n : nat) s,
    (S n < length (history st))%nat → history st !! n = Some s →
    calculateWinner (squares s) = None.

(** The three indices of a line are cell indices and differ. *)
Definition line_distinct (l : Z * Z * Z) : Prop :=
  let '(a, b, c) := l in a ≠ b ∧ a ≠ c ∧ b ≠ c.

(** Exchanging the two marks, in a cell, in an array, in a result. *)
Definition swap_mark (m : mark) : mark :=
  match m with X => O | O => X end.

Definition swap_value (v : value) : value :=
  match v with
  | JMark m => JMark (swap_mark m)
  | JNull => JNull
  | JUndefined => JUndefined
  end.

Definition swap_array (a : jsarray) : jsarray :=
  {| items := swap_value <$> items a; props := swap_value <$> props a |}.

Definition swap_winnerInfo (w : winnerInfo) : winnerInfo :=
  {| winner_of := swap_value (winner_of w); line_of := line_of w |}.

(** The end of a game that fills the board without a line. *)
Definition state_drawn : state :=
  Eval vm_compute in default initial_state (play [0; 1; 2; 4; 3; 5; 7; 6; 8]).

(** ** What the components render

    A React element as the components of [App.js] build it: a text, or
    a host element with its tag, its props, its [onClick] handler if it
    has one, and its children.  A handler is kept as what a click on
    the element does: the components [Square], [Board] and
    [MoveHistory] pass on the handlers given to them, whatever these
    are; [App] gives them its own, and there a click is the state the
    handler sets.  A component element is replaced by what the
    component returns, so that the [key] of a [Square] does not show;
    the keys of host elements do.  A prop whose value is [undefined] is
    left out. *)
Inductive attr :=
  | AStr (s : string)
  | ABool (b : bool)
  | ANum (n : Z).

Global Instance attr_eq_dec : EqDecision attr.
Proof. solve_decision. Defined.

Local Unset Elimination Schemes.

Inductive element (A : Type) :=
  | Text (s : string)
  | Elem (tag : string) (attrs : list (string * attr)) (onClick : option A)
         (children : list (element A)).

Local Set Elimination Schemes.

Arguments Text {A} s.
Arguments Elem {A} tag attrs onClick children.

(** A number inside a template literal: decimal digits, with a sign
    when negative (integers below [10^21] in size). *)
Definition number_toString (n : Z) : string := pretty n.

(** [{value}] as a child: a string is a text, [null] and [undefined]
    render nothing. *)
Definition value_child {A} (v : value) : list (element A) :=
  match v with
  | JMark _ => [Text (toString v)]
  | JNull | JUndefined => []
  end.

(** [Square({ value, onClick, index, highlight })] *)
Definition Square {A} (v : value) (onClick : A) (index : Z) (highlight : bool)
    : element A :=
  Elem "button"
    [ ("type", AStr "button");
      ("className", AStr ("square " +:+ (if highlight then "square--highlight" else "")));
      ("aria-label",
        AStr ("Cell " +:+ number_toString (index + 1)
              +:+ (if truthy v then ", " +:+ toString v else "")));
      ("aria-pressed", ABool (truthy v)) ]
    (Some onClick)
    (value_child v).

(** [winningLine ? winningLine.includes(i) : false] *)
Definition isWinning (winningLine : option (list Z)) (i : Z) : bool :=
  match winningLine with
  | Some line => bool_decide (i ∈ line)
  | None => false
  end.

(** [Board({ squares, onSquareClick, winningLine })] *)
Definition Board {A} (squares : jsarray) (onSquareClick : Z → A)
    (winningLine : option (list Z)) : element A :=
  let renderSquare (i : Z) :=
    Square (aget squares i) (onSquareClick i) i (isWinning winningLine i) in
  Elem "div"
    [ ("className", AStr "grid"); ("role", AStr "grid");
      ("aria-label", AStr "Tic Tac Toe grid") ]
    None
    ((λ row,
        Elem "div"
          [ ("className", AStr "grid-row"); ("role", AStr "row"); ("key", ANum row) ]
          None
          ((λ col,
              let idx := row * 3 + col in
              Elem "div"
                [ ("className", AStr "grid-cell"); ("role", AStr "gridcell");
                  ("key", ANum idx) ]
                None
                [renderSquare idx]) <$> [0; 1; 2])) <$> [0; 1; 2]).

(** [moveToText(step, lastMove)]; [Math.floor(lastMove / 3)] is [Z.div]
    and [lastMove % 3] is [Z.rem]. *)
Definition moveToText (step : Z) (lastMove : option Z) : string :=
  if step =? 0 then "Go to game start"
  else
    match lastMove with
    | Some lastMove =>
        (* Derive row/col for display (1-based) *)
        let row := lastMove / 3 + 1 in
        let col := Z.rem lastMove 3 + 1 in
        "Go to move #" +:+ number_toString step
        +:+ " (r" +:+ number_toString row +:+ ", c" +:+ number_toString col +:+ ")"
    | None => "Go to move #" +:+ number_toString step
    end.

(** The button of the history list for [stepState] at index [step]. *)
Definition history_button {A} (currentStep : Z) (onJumpTo : Z → A)
    (step : nat) (stepState : snapshot) : element A :=
  Elem "button"
    ([ ("type", AStr "button");
       ("className",
         AStr ("btn btn--ghost "
               +:+ (if currentStep =? Z.of_nat step then "btn--active" else ""))) ]
     ++ (if currentStep =? Z.of_nat step then [("aria-current", AStr "step")] else []))
    (Some (onJumpTo (Z.of_nat step)))
    [ Text (moveToText (Z.of_nat step) (lastMove stepState)) ].

(** The [li] that [history.map] gives for [stepState] at index [step]. *)
Definition history_item {A} (currentStep : Z) (onJumpTo : Z → A)
    (step : nat) (stepState : snapshot) : element A :=
  Elem "li" [ ("key", ANum (Z.of_nat step)) ] None
    [ history_button currentStep onJumpTo step stepState ].

(** [MoveHistory({ history, currentStep, onJumpTo })] *)
Definition MoveHistory {A} (history : list snapshot) (currentStep : Z)
    (onJumpTo : Z → A) : element A :=
  Elem "div" [ ("className", AStr "panel") ] None
    [ Elem "h3" [ ("className", AStr "panel-title") ] None [ Text "Move History" ];
      Elem "ol" [ ("className", AStr "history-list") ] None
        (imap (history_item currentStep onJumpTo) history) ].

(** The class of the status line:
    [winner ? 'status--win' : isDraw ? 'status--draw' : 'status--ongoing']. *)
Definition status_className (squares : jsarray) : string :=
  "status " +:+ (if truthy (winner_at squares) then "status--win"
                 else if isDraw_at squares then "status--draw"
                 else "status--ongoing").

(** The button of the controls section. *)
Definition restart_button {A} (onClick : A) : element A :=
  Elem "button"
    [ ("type", AStr "button"); ("className", AStr "btn");
      ("aria-label", AStr "Restart game") ]
    (Some onClick)
    [ Text "Restart" ].

(** What [App] returns in state [st]; [None] when the render throws
    (see [winner]).  A click gives the state its handler sets. *)
Definition App (st : state) : option (element (option state)) :=
  cur ← current st;
  Some
    (Elem "div" [ ("className", AStr "app") ] None
       [ Elem "div" [ ("className", AStr "container") ] None
           [ Elem "header" [ ("className", AStr "header") ] None
               [ Elem "h1" [ ("className", AStr "title") ] None [ Text "Tic Tac Toe" ] ];
             Elem "div"
               [ ("className", AStr "status-bar"); ("role", AStr "status");
                 ("aria-live", AStr "polite") ]
               None
               [ Elem "span" [ ("className", AStr (status_className (squares cur))) ] None
                   [ Text (statusText_at (currentStep st) (squares cur)) ] ];
             Elem "main" [ ("className", AStr "main") ] None
               [ Board (squares cur) (handleSquareClick st)
                   (winningLine_at (squares cur)) ];
             Elem "section" [ ("className", AStr "controls") ] None
               [ restart_button (Some (restart st)) ];
             Elem "footer" [ ("className", AStr "footer") ] None
               [ MoveHistory (history st) (currentStep st)
                   (λ step, Some (jumpTo st step)) ] ] ]).

(** ** Looking into an element *)

(** The element and everything below it, in document order. *)
Fixpoint descendants {A} (e : element A) : list (element A) :=
  e :: match e with
       | Text _ => []
       | Elem _ _ _ children => flat_map descendants children
       end.

Definition tag_of {A} (e : element A) : option string :=
  match e with Text _ => None | Elem tag _ _ _ => Some tag end.

Definition attr_of {A} (name : string) (e : element A) : option attr :=
  match e with
  | Text _ => None
  | Elem _ attrs _ _ => (λ found, found.2.2) <$> list_find (λ p, p.1 = name) attrs
  end.

Definition click_of {A} (e : element A) : option A :=
  match e with Text _ => None | Elem _ _ onClick _ => onClick end.

Definition children_of {A} (e : element A) : list (element A) :=
  match e with Text _ => [] | Elem _ _ _ children => children end.

(** The buttons of an element, in document order. *)
Definition buttons {A} (e : element A) : list (element A) :=
  filter (λ d, tag_of d = Some "button"%string) (descendants e).

(** The nine cell indices, in the order the grid shows them. *)
Definition cell_indices : list Z := [0; 1; 2; 3; 4; 5; 6; 7; 8].

(** One interaction with the page: a click on a button that [App]
    shows in state [st], setting state [st']. *)
Definition ui_step (st st' : state) : Prop :=
  ∃ view b, App st = Some view ∧ b ∈ buttons view ∧ click_of b = Some (Some st').

Inductive ui_reachable : state → Prop :=
  | ui_reachable_init : ui_reachable initial_state
  | ui_reachable_step st st' : ui_reachable st → ui_step st st' → ui_reachable st'.

(** The square the grid shows in row [row] and column [col], both
    counted from 0: the child of the cell [col] of the row [row]. *)
Definition grid_square {A} (board : element A) (row col : nat) : option (element A) :=
  r ← children_of board !! row;
  cell ← children_of r !! col;
  children_of cell !! 0%nat.

(** The elements with a given tag below and including an element, in
    document order. *)
Definition elements_with_tag {A} (tag : string) (e : element A) : list (element A) :=
  filter (λ d, tag_of d = Some tag) (descendants e).

(** Whether the [aria-label] of an element starts with [p]. *)
Definition label_starts_with {A} (p : string) (e : element A) : bool :=
  match attr_of "aria-label" e with
  | Some (AStr label) => String.prefix p label
  | _ => false
  end.

(** The class of the status line for each status. *)
Definition status_class (s : status) : string :=
  match s with
  | Winner _ => "status status--win"
  | Draw => "status status--draw"
  | NextPlayer _ => "status status--ongoing"
  end.

(** The label of the square of index [i] holding [v]. *)
Definition cell_label (i : Z) (v : value) : string :=
  "Cell " +:+ number_toString (i + 1) +:+ (if truthy v then ", " +:+ toString v else "").

(** Closes a decidable goal about concrete data by evaluation. *)
Ltac by_decision := apply (bool_decide_unpack _); vm_compute; exact I.

(** * Properties *)

(** ** Reading and writing arrays *)

Lemma is_array_index_cell i : 0 ≤ i ≤ 8 → is_array_index i = true.
Proof. unfold is_array_index. intros ?. apply andb_true_iff. lia. Qed.

Lemma aget_board_lookup board i :
  is_board board → 0 ≤ i ≤ 8 →
  ∃ v, items board !! Z.to_nat i = Some v ∧ aget board i = v ∧ is_cell v.
Proof.
  intros (Hlen & _ & Hcells) Hi.
  destruct (lookup_lt_is_Some_2 (items board) (Z.to_nat i)) as [v Hv]; [lia|].
  exists v. unfold aget. rewrite is_array_index_cell, Hv by done.
  split_and!; [done..|]. by eapply Forall_lookup_1.
Qed.

Lemma aget_board_cell board i :
  is_board board → 0 ≤ i ≤ 8 → is_cell (aget board i).
Proof. intros Hb Hi. by destruct (aget_board_lookup board i Hb Hi) as (v & _ & -> & ?). Qed.

Lemma cell_truthy v : is_cell v → truthy v = true ↔ v ≠ JNull.
Proof. unfold is_cell. destruct v; naive_solver. Qed.

Lemma truthy_mark v : truthy v = true ↔ ∃ m, v = JMark m.
Proof.
  destruct v as [| |m]; simpl; split; try done.
  - by intros [? ?].
  - by intros [? ?].
  - eauto.
Qed.

(** ** Two games played through

    X takes the top row with its third move; and a game that fills the
    board with no line. *)

Example game_won_on_top_row :
  play [0; 4; 1; 5; 2] ≫= statusText = Some "Winner: X"%string
  ∧ play [0; 4; 1; 5; 2] ≫= winningLine = Some (Some [0; 1; 2])
  ∧ play [0; 4; 1; 5; 2] = Some state_won.
Proof. by vm_compute. Qed.

Example game_drawn :
  play [0; 1; 2; 4; 3; 5; 7; 6; 8] ≫= statusText = Some "Draw! No moves left."%string
  ∧ play [0; 1; 2; 4; 3; 5; 7; 6; 8] ≫= isDraw = Some true
  ∧ play [0; 1; 2; 4; 3; 5; 7; 6; 8] ≫= winner = Some JNull.
Proof. by vm_compute. Qed.

(** ** The win detector *)

Lemma line_complete_qualifies board l :
  is_board board → line_in_range l →
  line_complete board l = true ↔ qualifies board l.
Proof.
  destruct l as [[a b] c]. intros Hb (Ha & _ & _).
  unfold line_complete, qualifies, strict_eq.
  rewrite !andb_true_iff, !bool_decide_eq_true.
  rewrite (cell_truthy _ (aget_board_cell board a Hb Ha)). tauto.
Qed.

(** The loop returns at the first line that passes its test, with the
    value of that line's first square and the line itself. *)
Lemma scan_lines_Some squares ls w :
  scan_lines squares ls = Some w ↔
  ∃ (n : nat) a b c,
    ls !! n = Some (a, b, c)
    ∧ line_complete squares (a, b, c) = true
    ∧ (∀ (j : nat) l, (j < n)%nat → ls !! j = Some l → line_complete squares l = false)
    ∧ w = {| winner_of := aget squares a; line_of := [a; b; c] |}.
Proof.
  induction ls as [|[[a b] c] rest IH]; cbn [scan_lines].
  { split; [done|]. by intros (n & ? & ? & ? & ? & _). }
  destruct (line_complete squares (a, b, c)) eqn:Hl.
  - split.
    + intros [= <-]. exists 0%nat, a, b, c. split_and!; [done..| |done].
      intros j l Hj. lia.
    + intros (n & a' & b' & c' & Hn & Hc & Hfirst & ->).
      destruct n as [|n].
      * by simplify_eq/=.
      * specialize (Hfirst 0%nat (a, b, c) ltac:(lia) eq_refl). congruence.
  - rewrite IH. split.
    + intros (n & a' & b' & c' & Hn & Hc & Hfirst & ->).
      exists (S n), a', b', c'. split_and!; [done..| |done].
      intros [|j] l Hj Hjl.
      * by injection Hjl as <-.
      * apply (Hfirst j); [lia|done].
    + intros (n & a' & b' & c' & Hn & Hc & Hfirst & ->).
      destruct n as [|n].
      * simplify_eq/=. congruence.
      * exists n, a', b', c'. split_and!; [done..| |done].
        intros j l Hj Hjl. apply (Hfirst (S j)); [lia|done].
Qed.

Lemma scan_lines_None squares ls :
  scan_lines squares ls = None ↔ ∀ l, l ∈ ls → line_complete squares l = false.
Proof.
  induction ls as [|[[a b] c] rest IH]; cbn [scan_lines].
  { split; [|done]. intros _ l Hl. by apply not_elem_of_nil in Hl. }
  destruct (line_complete squares (a, b, c)) eqn:Hl.
  - split; [done|]. intros H. rewrite H in Hl; [done|]. left.
  - rewrite IH. split.
    + intros H l [->|?]%elem_of_cons; auto.
    + intros H l ?. apply H. by right.
Qed.

Lemma lines_in_range : Forall line_in_range lines.
Proof. unfold lines, line_in_range. repeat constructor; lia. Qed.

(** The winner reported is always a mark. *)
Lemma calculateWinner_truthy squares w :
  calculateWinner squares = Some w → truthy (winner_of w) = true.
Proof.
  intros (n & a & b & c & _ & Hc & _ & ->)%scan_lines_Some. simpl.
  unfold line_complete in Hc. by apply andb_true_iff in Hc as [[? _]%andb_true_iff _].
Qed.

Lemma truthy_winner_at board :
  truthy (winner_at board) = true ↔ calculateWinner board ≠ None.
Proof.
  unfold winner_at. destruct (calculateWinner board) as [w|] eqn:Hw.
  - by rewrite (calculateWinner_truthy _ _ Hw).
  - simpl. naive_solver.
Qed.

(** C1. On every board of 9 cells, [calculateWinner] goes through the 8
    fixed triples, rows, then columns, then diagonals, in the order
    written; for the first triple whose three cells are all equal and
    non-empty it returns that mark together with the triple's indices,
    and it returns nothing when no triple qualifies. *)
Theorem calculateWinner_first_qualifying_line (board : jsarray) :
  is_board board →
  lines = [ (0, 1, 2); (3, 4, 5); (6, 7, 8);
            (0, 3, 6); (1, 4, 7); (2, 5, 8);
            (0, 4, 8); (2, 4, 6) ]
  ∧ (∀ (n : nat) a b c,
        lines !! n = Some (a, b, c) →
        qualifies board (a, b, c) →
        (∀ (j : nat) l, (j < n)%nat → lines !! j = Some l → ¬ qualifies board l) →
        ∃ m, aget board a = JMark m
             ∧ calculateWinner board = Some {| winner_of := JMark m; line_of := [a; b; c] |})
  ∧ ((∀ l, l ∈ lines → ¬ qualifies board l) → calculateWinner board = None)
  ∧ (∀ w, calculateWinner board = Some w →
        ∃ (n : nat) a b c m,
          lines !! n = Some (a, b, c) ∧ qualifies board (a, b, c)
          ∧ (∀ (j : nat) l, (j < n)%nat → lines !! j = Some l → ¬ qualifies board l)
          ∧ w = {| winner_of := JMark m; line_of := [a; b; c] |}).
Proof.
  intros Hb.
  assert (Hq : ∀ (n : nat) l, lines !! n = Some l →
                 line_complete board l = true ↔ qualifies board l).
  { intros n l Hn. apply line_complete_qualifies; [done|].
    by eapply (Forall_lookup_1 _ _ _ _ lines_in_range). }
  split_and!; [done| | |].
  - intros n a b c Hn Hqual Hfirst.
    assert (Hc : line_complete board (a, b, c) = true) by by eapply Hq.
    assert (Ht : truthy (aget board a) = true).
    { unfold line_complete in Hc.
      by apply andb_true_iff in Hc as [[? _]%andb_true_iff _]. }
    apply truthy_mark in Ht as [m Hm]. exists m. split; [done|].
    rewrite <- Hm. apply scan_lines_Some.
    exists n, a, b, c. split_and!; [done..| |done].
    intros j l Hj Hjl. apply not_true_is_false. rewrite (Hq j l Hjl). eauto.
  - intros Hnone. apply scan_lines_None. intros l Hl.
    apply list_elem_of_lookup in Hl as Hl'. destruct Hl' as [n Hn].
    apply not_true_is_false. rewrite (Hq n l Hn). auto.
  - intros w Hw. pose proof (calculateWinner_truthy _ _ Hw) as Ht.
    apply scan_lines_Some in Hw as (n & a & b & c & Hn & Hc & Hfirst & ->).
    simpl in Ht. apply truthy_mark in Ht as [m Hm].
    exists n, a, b, c, m. split_and!; [done|by eapply Hq| |by rewrite Hm].
    intros j l Hj Hjl. rewrite <- (Hq j l Hjl), (Hfirst j l Hj Hjl). done.
Qed.

(** ** Array writes *)

Lemma aget_aset_eq a i v : aget (aset a i v) i = v.
Proof.
  unfold aget, aset. destruct (is_array_index i) eqn:Hi.
  - case_decide as Hlt; simpl.
    + by rewrite list_lookup_insert_eq.
    + rewrite lookup_app_r by lia.
      rewrite lookup_app_r by (rewrite length_replicate; lia).
      rewrite length_replicate.
      by replace (Z.to_nat i - length (items a)
                  - (Z.to_nat i - length (items a)))%nat with 0%nat by lia.
  - simpl. by rewrite lookup_insert_eq.
Qed.

Lemma aget_aset_ne a i j v : i ≠ j → aget (aset a i v) j = aget a j.
Proof.
  intros Hne. unfold aget, aset.
  destruct (is_array_index i) eqn:Hi, (is_array_index j) eqn:Hj;
    try case_decide; simpl; try done.
  - unfold is_array_index in Hi, Hj.
    rewrite list_lookup_insert_ne; [done|]. lia.
  - unfold is_array_index in Hi, Hj.
    destruct (decide (Z.to_nat j < length (items a))%nat).
    { by rewrite lookup_app_l. }
    rewrite (lookup_ge_None_2 (items a)) by lia.
    rewrite lookup_app_r by lia.
    destruct (decide (Z.to_nat j < Z.to_nat i)%nat).
    + rewrite lookup_app_l by (rewrite length_replicate; lia).
      rewrite lookup_replicate_2; [done|lia].
    + rewrite lookup_ge_None_2; [done|].
      rewrite length_app, length_replicate. simpl. lia.
  - by rewrite lookup_insert_ne.
Qed.

Lemma aset_slice_board board i m :
  is_board board → 0 ≤ i ≤ 8 →
  aset (slice board) i (JMark m)
  = {| items := <[Z.to_nat i := JMark m]> (items board); props := ∅ |}.
Proof.
  intros (Hlen & _ & _) Hi. unfold aset, slice. simpl.
  rewrite is_array_index_cell by done. case_decide; [done|lia].
Qed.

Lemma aset_slice_is_board board i m :
  is_board board → 0 ≤ i ≤ 8 → is_board (aset (slice board) i (JMark m)).
Proof.
  intros Hb Hi. rewrite aset_slice_board by done.
  destruct Hb as (Hlen & _ & Hcells). split_and!; simpl.
  - by rewrite length_insert.
  - done.
  - apply Forall_insert; [done|]. unfold is_cell. done.
Qed.

(** ** Reading the history *)

Lemma current_Some st cur :
  current st = Some cur ↔
  0 ≤ currentStep st ∧ history st !! Z.to_nat (currentStep st) = Some cur.
Proof.
  unfold current, history_get. destruct (Z.leb_spec 0 (currentStep st)).
  - tauto.
  - split; [done|]. lia.
Qed.

Lemma current_in_range st cur :
  current st = Some cur → 0 ≤ currentStep st < Z.of_nat (length (history st)).
Proof.
  intros [H0 Hl%lookup_lt_Some]%current_Some. lia.
Qed.

Lemma current_is_Some st :
  0 ≤ currentStep st < Z.of_nat (length (history st)) → is_Some (current st).
Proof.
  intros Hr. destruct (lookup_lt_is_Some_2 (history st) (Z.to_nat (currentStep st)))
    as [cur Hcur]; [lia|].
  exists cur. apply current_Some. split; [lia|done].
Qed.

Lemma current_None st :
  ¬ (0 ≤ currentStep st < Z.of_nat (length (history st))) → current st = None.
Proof.
  intros Hr. destruct (current st) as [cur|] eqn:Hcur; [|done].
  by apply current_in_range in Hcur.
Qed.

Lemma wf_current_board st cur :
  wf_state st → current st = Some cur → is_board (squares cur).
Proof.
  intros [_ Hb] [_ Hcur]%current_Some.
  by apply (Forall_lookup_1 _ _ _ _ Hb Hcur).
Qed.

Lemma history_slice0_succ {A} (h : list A) (k : Z) :
  0 ≤ k → history_slice0 h (k + 1) = take (S (Z.to_nat k)) h.
Proof.
  intros Hk. unfold history_slice0.
  destruct (Z.ltb_spec (k + 1) 0); [lia|].
  f_equal. lia.
Qed.

Lemma length_history_slice0_succ {A} (h : list A) (k : Z) :
  0 ≤ k < Z.of_nat (length h) →
  Z.of_nat (length (history_slice0 h (k + 1))) = k + 1.
Proof.
  intros Hk. rewrite history_slice0_succ by lia. rewrite length_take. lia.
Qed.

(** ** The click handler, case by case *)

Lemma handleSquareClick_ignored st cur index :
  current st = Some cur →
  truthy (winner_at (squares cur)) || truthy (aget (squares cur) index) = true →
  handleSquareClick st index = Some st.
Proof. intros Hcur Hc. unfold handleSquareClick. rewrite Hcur. simpl. by rewrite Hc. Qed.

Lemma handleSquareClick_accepted st cur index :
  current st = Some cur →
  truthy (winner_at (squares cur)) || truthy (aget (squares cur) index) = false →
  handleSquareClick st index =
    Some {| history :=
              take (S (Z.to_nat (currentStep st))) (history st)
              ++ [ {| squares := aset (slice (squares cur)) index (JMark (nextMark (currentStep st)));
                      lastMove := Some index |} ];
            currentStep := currentStep st + 1 |}.
Proof.
  intros Hcur Hc. unfold handleSquareClick. rewrite Hcur. simpl. rewrite Hc.
  pose proof (current_in_range _ _ Hcur) as Hr.
  rewrite length_history_slice0_succ by done.
  by rewrite history_slice0_succ by lia.
Qed.

Lemma handleSquareClick_None st index :
  handleSquareClick st index = None ↔ current st = None.
Proof.
  unfold handleSquareClick. destruct (current st) as [cur|]; simpl; [|done].
  by destruct (truthy (winner_at (squares cur)) || truthy (aget (squares cur) index)).
Qed.

(** The turn owner is a function of the parity of the cursor alone. *)
Lemma nextMark_parity step :
  nextMark step = if Z.even step then X else O.
Proof.
  unfold nextMark, xIsNext. destruct (Z.even step) eqn:He.
  - apply Z.even_spec in He as [k ->].
    by rewrite Z.mul_comm, Z.rem_mul by lia.
  - destruct (Z.eqb_spec (Z.rem step 2) 0) as [H0|]; [|done].
    apply Z.rem_mod_eq_0 in H0; [|lia].
    rewrite Zmod_even, He in H0. done.
Qed.

(** C1 at a board where X holds the top row: the first triple wins. *)
Lemma calculateWinner_first_qualifying_line_witness :
  is_board board_x_top_row
  ∧ calculateWinner board_x_top_row
    = Some {| winner_of := JMark X; line_of := [0; 1; 2] |}.
Proof.
  assert (Hb : is_board board_x_top_row) by by_decision.
  split; [exact Hb|].
  destruct (calculateWinner_first_qualifying_line board_x_top_row Hb)
    as (_ & Hfirst & _ & _).
  destruct (Hfirst 0%nat 0 1 2 eq_refl) as (m & Hm & Hw).
  - by_decision.
  - intros j l Hj. lia.
  - rewrite Hw. injection Hm as <-. reflexivity.
Defined.

(** ** Placing a mark *)

Lemma legal_guard_false cur i :
  calculateWinner (squares cur) = None → aget (squares cur) i = JNull →
  truthy (winner_at (squares cur)) || truthy (aget (squares cur) i) = false.
Proof.
  intros Hw Hi. unfold winner_at. by rewrite Hw, Hi.
Qed.

Lemma wf_state_accepted st cur i :
  wf_state st → current st = Some cur → 0 ≤ i ≤ 8 →
  wf_state
    {| history :=
         take (S (Z.to_nat (currentStep st))) (history st)
         ++ [ {| squares := aset (slice (squares cur)) i (JMark (nextMark (currentStep st)));
                 lastMove := Some i |} ];
       currentStep := currentStep st + 1 |}.
Proof.
  intros Hwf Hcur Hi. pose proof (wf_current_board _ _ Hwf Hcur) as Hb.
  destruct Hwf as [Hr Hboards]. split; simpl.
  - rewrite length_app, length_take. cbn [length]. lia.
  - apply Forall_app. split.
    + by apply Forall_take.
    + constructor; [|done]. simpl. by apply aset_slice_is_board.
Qed.

(** C2. A legal placement at cursor [k] keeps the snapshots [0..k],
    appends one snapshot whose [lastMove] is the index played, and moves
    the cursor to that last snapshot; the history then has [k + 2]
    entries and whatever was stored beyond the old cursor is gone. *)
Theorem placeMark_truncates_then_appends (st : state) (cur : snapshot) (i : Z) :
  wf_state st →
  current st = Some cur →
  0 ≤ i ≤ 8 →
  calculateWinner (squares cur) = None →
  aget (squares cur) i = JNull →
  ∃ snap st',
    handleSquareClick st i = Some st'
    ∧ history st' = take (S (Z.to_nat (currentStep st))) (history st) ++ [snap]
    ∧ lastMove snap = Some i
    ∧ currentStep st' = Z.of_nat (length (history st')) - 1
    ∧ Z.of_nat (length (history st')) = currentStep st + 2
    ∧ (∀ j : nat, Z.of_nat j ≤ currentStep st → history st' !! j = history st !! j)
    ∧ history st' !! Z.to_nat (currentStep st + 1) = Some snap
    ∧ (∀ j : nat, currentStep st + 1 < Z.of_nat j → history st' !! j = None)
    ∧ wf_state st'.
Proof.
  intros Hwf Hcur Hi Hw Hempty.
  pose proof (current_in_range _ _ Hcur) as Hr.
  pose proof (handleSquareClick_accepted st cur i Hcur
                (legal_guard_false _ _ Hw Hempty)) as Hstep.
  eexists _, _. split; [exact Hstep|]. simpl.
  assert (Hlen : length (take (S (Z.to_nat (currentStep st))) (history st))
                 = S (Z.to_nat (currentStep st))).
  { rewrite length_take. lia. }
  split_and!; try done.
  - rewrite length_app, Hlen. cbn [length]. lia.
  - rewrite length_app, Hlen. cbn [length]. lia.
  - intros j Hj. rewrite lookup_app_l by lia. apply lookup_take_lt. lia.
  - rewrite lookup_app_r by lia.
    by replace (Z.to_nat (currentStep st + 1)
                - length (take (S (Z.to_nat (currentStep st))) (history st)))%nat
      with 0%nat by lia.
  - intros j Hj. apply lookup_ge_None_2. rewrite length_app, Hlen. cbn [length]. lia.
  - by apply wf_state_accepted.
Qed.

(** C2 at the rewound sample state: playing 8 at cursor 1 of a
    three-entry history leaves three entries, the old third one gone. *)
Lemma placeMark_truncates_then_appends_witness :
  ∃ snap st',
    handleSquareClick state_rewound 8 = Some st'
    ∧ history st' = take 2 (history state_rewound) ++ [snap]
    ∧ lastMove snap = Some 8
    ∧ Z.of_nat (length (history st')) = 3.
Proof.
  assert (Hwf : wf_state state_rewound) by by_decision.
  destruct (placeMark_truncates_then_appends state_rewound
              {| squares := board_of [JMark X; JNull; JNull; JNull; JNull;
                                      JNull; JNull; JNull; JNull];
                 lastMove := Some 0 |} 8 Hwf eq_refl)
    as (snap & st' & Hstep & Hh & Hl & _ & Hlen & _); [lia|reflexivity|reflexivity|].
  exists snap, st'. split_and!; [exact Hstep|exact Hh|exact Hl|exact Hlen].
Defined.

(** C3. With a winner at the current snapshot, or with the chosen cell
    taken, the click changes nothing: the handler returns normally and
    the state, history, its length, cursor and so the board shown, is
    the one before. *)
Theorem placeMark_illegal_is_silent_noop (st : state) (cur : snapshot) (i : Z) :
  wf_state st →
  current st = Some cur →
  0 ≤ i ≤ 8 →
  calculateWinner (squares cur) ≠ None ∨ aget (squares cur) i ≠ JNull →
  handleSquareClick st i = Some st
  ∧ ∀ st', handleSquareClick st i = Some st' →
      history st' = history st
      ∧ length (history st') = length (history st)
      ∧ currentStep st' = currentStep st
      ∧ current st' = Some cur.
Proof.
  intros Hwf Hcur Hi Hillegal.
  assert (Hnoop : handleSquareClick st i = Some st).
  { apply (handleSquareClick_ignored st cur i Hcur).
    apply orb_true_iff. destruct Hillegal as [Hw|Hocc].
    - left. by apply truthy_winner_at.
    - right. apply cell_truthy; [|done].
      apply aget_board_cell; [|done]. by eapply wf_current_board. }
  split; [done|]. intros st' Hst'. rewrite Hnoop in Hst'.
  by injection Hst' as <-.
Qed.

(** C3 at the won sample state (any cell), and at the rewound one on
    the taken cell 0. *)
Lemma placeMark_illegal_is_silent_noop_witness :
  handleSquareClick state_won 6 = Some state_won
  ∧ handleSquareClick state_rewound 0 = Some state_rewound.
Proof.
  split.
  - refine (proj1 (placeMark_illegal_is_silent_noop state_won
                     {| squares := board_x_top_row; lastMove := Some 2 |} 6 _ eq_refl _ _)).
    + by_decision.
    + lia.
    + left. vm_compute. discriminate.
  - refine (proj1 (placeMark_illegal_is_silent_noop state_rewound
                     {| squares := board_of [JMark X; JNull; JNull; JNull; JNull;
                                             JNull; JNull; JNull; JNull];
                        lastMove := Some 0 |} 0 _ eq_refl _ _)).
    + by_decision.
    + lia.
    + right. vm_compute. discriminate.
Defined.

(** ** The status line *)

(** On a board, the [every] of [isDraw] is the fill check. *)
Lemma every_not_null_board_full board :
  is_board board →
  every (λ s, negb (strict_eq s JNull)) board = true ↔ board_full board.
Proof.
  intros Hb. unfold every, strict_eq.
  rewrite <- Is_true_true, forallb_True, Forall_lookup. split.
  - intros Hall i Hi.
    destruct (aget_board_lookup board i Hb Hi) as (v & Hv & <- & _).
    specialize (Hall _ _ Hv). simpl in Hall.
    apply negb_True in Hall. by rewrite bool_decide_spec in Hall.
  - intros Hfull n v Hv. simpl.
    apply negb_True. rewrite bool_decide_spec.
    pose proof (lookup_lt_Some _ _ _ Hv) as Hn.
    destruct Hb as (Hlen & _ & _).
    assert (Hi : 0 ≤ Z.of_nat n ≤ 8) by lia.
    specialize (Hfull _ Hi). unfold aget in Hfull.
    rewrite is_array_index_cell, Nat2Z.id, Hv in Hfull by done. done.
Qed.

Lemma status_text_inj s s' : status_text s = status_text s' → s = s'.
Proof. by destruct s as [[]| |[]], s' as [[]| |[]]. Qed.

Lemma getStatus_spec_deterministic st cur s s' :
  getStatus_spec st cur s → getStatus_spec st cur s' → s = s'.
Proof. destruct 1; destruct 1; congruence. Qed.

(** C4. The status shown is the winner when [calculateWinner] finds one
    on the current board; otherwise a draw exactly when all 9 cells are
    taken; otherwise the player to move.  A winner is reported before a
    draw, and a draw only without a winner and with a full board. *)
Theorem statusText_refines_getStatus (st : state) (cur : snapshot) :
  wf_state st →
  current st = Some cur →
  ∃ s,
    getStatus_spec st cur s
    ∧ statusText st = Some (status_text s)
    ∧ (∀ s', getStatus_spec st cur s' → s' = s)
    ∧ (∀ s', statusText st = Some (status_text s') → getStatus_spec st cur s')
    ∧ (s = Draw ↔ calculateWinner (squares cur) = None ∧ board_full (squares cur))
    ∧ (∀ m, s = Winner m ↔ ∃ l, calculateWinner (squares cur)
                                  = Some {| winner_of := JMark m; line_of := l |}).
Proof.
  intros Hwf Hcur. pose proof (wf_current_board _ _ Hwf Hcur) as Hb.
  assert (Hex : ∃ s, getStatus_spec st cur s ∧ statusText st = Some (status_text s)).
  { unfold statusText, statusText_at. rewrite Hcur. simpl.
    unfold isDraw_at, winner_at.
    destruct (calculateWinner (squares cur)) as [[v l]|] eqn:Hw.
    - pose proof (calculateWinner_truthy _ _ Hw) as Ht. simpl in Ht |- *.
      rewrite Ht. apply truthy_mark in Ht as [m ->].
      exists (Winner m). split; [by econstructor|done].
    - simpl.
      destruct (every _ (squares cur)) eqn:Hfull.
      + exists Draw. split; [|done].
        constructor; [done|]. by apply every_not_null_board_full.
      + exists (NextPlayer (turn_owner st)). split.
        * constructor; [done|]. intros Hf%every_not_null_board_full; [|done].
          congruence.
        * unfold turn_owner. by rewrite nextMark_parity. }
  destruct Hex as (s & Hs & Htext). exists s.
  split_and!; [done|done| | | |].
  - intros s' Hs'. by eapply getStatus_spec_deterministic.
  - intros s' Hs'. rewrite Htext in Hs'. injection Hs' as Heq.
    by apply status_text_inj in Heq as <-.
  - split.
    + intros ->. by inversion Hs.
    + intros [Hw Hf]. eapply getStatus_spec_deterministic; [exact Hs|].
      by constructor.
  - intros m. split.
    + intros ->. inversion Hs. eauto.
    + intros [l Hl]. eapply getStatus_spec_deterministic; [exact Hs|].
      by econstructor.
Qed.

(** C4 at the won sample state: the status is [Winner X]. *)
Lemma statusText_refines_getStatus_witness :
  statusText state_won = Some "Winner: X"%string.
Proof.
  destruct (statusText_refines_getStatus state_won
              {| squares := board_x_top_row; lastMove := Some 2 |})
    as (s & _ & Htext & _ & _ & _ & Hwin); [by_decision|reflexivity|].
  rewrite Htext. f_equal.
  rewrite (proj2 (Hwin X)); [reflexivity|].
  exists [0; 1; 2]. reflexivity.
Defined.

(** ** Time travel and restart *)

(** C6. The turn owner is a function of the parity of the cursor alone,
    X on even and O on odd; an accepted placement writes that mark into
    the chosen cell and nothing else; and after X at 0 and a jump back
    to step 0, a placement at 4 writes X again, gives a history of
    length 2, and a board holding only that X at index 4. *)
Theorem turn_owner_is_cursor_parity :
  (∀ st, nextMark (currentStep st) = turn_owner st)
  ∧ (∀ st step, turn_owner (jumpTo st step) = if Z.even step then X else O)
  ∧ (∀ st cur i,
        wf_state st → current st = Some cur → 0 ≤ i ≤ 8 →
        calculateWinner (squares cur) = None → aget (squares cur) i = JNull →
        ∃ st' snap,
          handleSquareClick st i = Some st'
          ∧ current st' = Some snap
          ∧ lastMove snap = Some i
          ∧ aget (squares snap) i = JMark (turn_owner st)
          ∧ (∀ j, j ≠ i → aget (squares snap) j = aget (squares cur) j))
  ∧ (∃ s1 s2,
        handleSquareClick initial_state 0 = Some s1
        ∧ (squares <$> current s1)
          = Some (board_of [JMark X; JNull; JNull; JNull; JNull; JNull; JNull; JNull; JNull])
        ∧ handleSquareClick (jumpTo s1 0) 4 = Some s2
        ∧ length (history s2) = 2%nat
        ∧ current s2
          = Some {| squares := board_of [JNull; JNull; JNull; JNull; JMark X;
                                         JNull; JNull; JNull; JNull];
                    lastMove := Some 4 |}
        ∧ handleSquareClick initial_state 4 = Some s2).
Proof.
  split_and!.
  - intros st. apply nextMark_parity.
  - done.
  - intros st cur i Hwf Hcur Hi Hw Hempty.
    pose proof (current_in_range _ _ Hcur) as Hr.
    eexists _, _. split_and!.
    + apply (handleSquareClick_accepted st cur i Hcur). by apply legal_guard_false.
    + apply current_Some. simpl. split; [lia|].
      rewrite lookup_app_r by (rewrite length_take; lia).
      rewrite length_take.
      by replace (Z.to_nat (currentStep st + 1)
                  - S (Z.to_nat (currentStep st)) `min` length (history st))%nat
        with 0%nat by lia.
    + done.
    + simpl. by rewrite aget_aset_eq, nextMark_parity.
    + intros j Hj. simpl. rewrite aget_aset_ne by done.
      unfold aget, slice. simpl.
      destruct (is_array_index j); [done|].
      destruct (wf_current_board _ _ Hwf Hcur) as (_ & -> & _). done.
  - eexists _, _. split_and!; reflexivity.
Qed.

(** C6 at the rewound sample state: cursor 1 is odd, so O is written. *)
Lemma turn_owner_is_cursor_parity_witness :
  ∃ st' snap,
    handleSquareClick state_rewound 8 = Some st'
    ∧ current st' = Some snap
    ∧ aget (squares snap) 8 = JMark O.
Proof.
  destruct turn_owner_is_cursor_parity as (_ & _ & Hplace & _).
  destruct (Hplace state_rewound
              {| squares := board_of [JMark X; JNull; JNull; JNull; JNull;
                                      JNull; JNull; JNull; JNull];
                 lastMove := Some 0 |} 8)
    as (st' & snap & Hstep & Hcur & _ & Hmark & _);
    [by_decision|reflexivity|lia|reflexivity|reflexivity|].
  exists st', snap. split_and!; [exact Hstep|exact Hcur|exact Hmark].
Defined.

(** C7. A jump to a step inside the history sets the cursor to that
    step and leaves the history as it is; jumping twice to the same
    step gives the state, and so the turn, winner, draw and status, of
    jumping once. *)
Theorem jumpTo_sets_cursor_idempotent (st : state) (k : Z) :
  0 ≤ k < Z.of_nat (length (history st)) →
  currentStep (jumpTo st k) = k
  ∧ history (jumpTo st k) = history st
  ∧ current (jumpTo st k) = history st !! Z.to_nat k
  ∧ is_Some (current (jumpTo st k))
  ∧ jumpTo (jumpTo st k) k = jumpTo st k
  ∧ xIsNext (currentStep (jumpTo (jumpTo st k) k)) = xIsNext (currentStep (jumpTo st k))
  ∧ winner (jumpTo (jumpTo st k) k) = winner (jumpTo st k)
  ∧ winningLine (jumpTo (jumpTo st k) k) = winningLine (jumpTo st k)
  ∧ isDraw (jumpTo (jumpTo st k) k) = isDraw (jumpTo st k)
  ∧ statusText (jumpTo (jumpTo st k) k) = statusText (jumpTo st k).
Proof.
  intros Hk. split_and!; try done.
  - unfold current, history_get, jumpTo. simpl.
    destruct (Z.leb_spec 0 k); [done|lia].
  - by apply current_is_Some.
Qed.

(** C7 at the won sample state, jumping back to step 2. *)
Lemma jumpTo_sets_cursor_idempotent_witness :
  currentStep (jumpTo state_won 2) = 2
  ∧ history (jumpTo state_won 2) = history state_won
  ∧ jumpTo (jumpTo state_won 2) 2 = jumpTo state_won 2.
Proof.
  destruct (jumpTo_sets_cursor_idempotent state_won 2) as (Hc & Hh & _ & _ & Hi & _).
  - simpl. lia.
  - split_and!; [exact Hc|exact Hh|exact Hi].
Defined.

(** C8. Whatever the state before, [restart] gives a history of one
    snapshot, the board of 9 empty cells with no last move, and
    cursor 0. *)
Theorem restart_resets (st : state) :
  restart st = {| history := [empty_snapshot]; currentStep := 0 |}
  ∧ restart st = initial_state
  ∧ length (history (restart st)) = 1%nat
  ∧ currentStep (restart st) = 0
  ∧ items (squares empty_snapshot)
    = [JNull; JNull; JNull; JNull; JNull; JNull; JNull; JNull; JNull]
  ∧ (∀ i, aget (squares empty_snapshot) i = JNull ↔ 0 ≤ i ≤ 8)
  ∧ lastMove empty_snapshot = None
  ∧ wf_state (restart st).
Proof.
  split_and!; try done.
  - intros i. unfold aget, empty_snapshot, array_fill, is_array_index.
    cbn [squares items props]. change (2 ^ 32 - 1) with 4294967295.
    destruct (Z.leb_spec 0 i), (Z.ltb_spec i 4294967295); cbn [andb];
      rewrite ?lookup_empty; try (split; [done|lia]).
    destruct (decide (Z.to_nat i < 9)%nat).
    + rewrite lookup_replicate_2 by done. split; [lia|done].
    + rewrite lookup_ge_None_2 by (rewrite length_replicate; lia).
      split; [done|lia].
  - by_decision.
Qed.

(** ** The invariant of the history *)

Lemma falsy_cell_is_null v : is_cell v → truthy v = false → v = JNull.
Proof. unfold is_cell. by destruct v. Qed.

Lemma chain_inv_initial : chain_inv initial_state.
Proof.
  split_and!.
  - by_decision.
  - done.
  - intros n s s' _ Hs'. by destruct n.
Qed.

Lemma chain_inv_jumpTo st k :
  chain_inv st → 0 ≤ k < Z.of_nat (length (history st)) → chain_inv (jumpTo st k).
Proof. intros ([_ Hb] & H0 & Hchain) Hk. by split_and!. Qed.

Lemma chain_inv_handleSquareClick st i st' :
  chain_inv st → 0 ≤ i ≤ 8 → handleSquareClick st i = Some st' → chain_inv st'.
Proof.
  intros (Hwf & H0 & Hchain) Hi Hstep.
  destruct (current st) as [cur|] eqn:Hcur;
    [|apply (proj2 (handleSquareClick_None st i)) in Hcur; congruence].
  destruct (truthy (winner_at (squares cur)) || truthy (aget (squares cur) i)) eqn:Hg.
  { rewrite (handleSquareClick_ignored _ _ _ Hcur Hg) in Hstep.
    injection Hstep as <-. by split_and!. }
  rewrite (handleSquareClick_accepted _ _ _ Hcur Hg) in Hstep.
  injection Hstep as <-.
  pose proof (current_in_range _ _ Hcur) as Hr.
  pose proof (wf_current_board _ _ Hwf Hcur) as Hb.
  apply current_Some in Hcur as Hk. destruct Hk as [_ Hk].
  set (k := Z.to_nat (currentStep st)) in *.
  assert (Hlen : length (take (S k) (history st)) = S k).
  { rewrite length_take. lia. }
  split_and!.
  - by apply wf_state_accepted.
  - simpl. rewrite lookup_app_l by lia. by rewrite lookup_take_lt by lia.
  - simpl. intros n s s' Hs Hs'.
    destruct (decide (S n < S k)%nat) as [Hlt|Hge].
    + rewrite lookup_app_l, lookup_take_lt in Hs by lia.
      rewrite lookup_app_l, lookup_take_lt in Hs' by lia.
      by eapply Hchain.
    + assert (n = k) as ->.
      { apply lookup_lt_Some in Hs'. rewrite length_app, Hlen in Hs'.
        simpl in Hs'. lia. }
      rewrite lookup_app_l, lookup_take_lt in Hs by lia.
      rewrite lookup_app_r, Hlen, Nat.sub_diag in Hs' by lia.
      assert (s = cur) as -> by congruence.
      injection Hs' as <-.
      apply orb_false_iff in Hg as [_ Hfalsy].
      destruct (aget_board_lookup _ _ Hb Hi) as (v & Hv & Hget & Hcell).
      rewrite Hget in Hfalsy.
      apply (falsy_cell_is_null _ Hcell) in Hfalsy as ->.
      exists i. split_and!; [lia|lia|done|done|]. simpl.
      rewrite aset_slice_board by done. simpl.
      by replace (Z.of_nat k) with (currentStep st) by lia.
Qed.

Lemma chain_inv_step st st' : chain_inv st → step st st' → chain_inv st'.
Proof.
  intros Hinv [i ? Hi Hstep|k Hk|].
  - by eapply chain_inv_handleSquareClick.
  - by apply chain_inv_jumpTo.
  - apply chain_inv_initial.
Qed.

Lemma reachable_chain_inv st : reachable st → chain_inv st.
Proof.
  induction 1 as [|st st' _ IH Hstep].
  - apply chain_inv_initial.
  - by eapply chain_inv_step.
Qed.

(** What [one_move] says about the cells, read through [aget]. *)
Lemma one_move_cells n s s' :
  is_board (squares s) → is_board (squares s') → one_move n s s' →
  ∃ i, 0 ≤ i ≤ 8
       ∧ lastMove s' = Some i
       ∧ aget (squares s) i = JNull
       ∧ aget (squares s') i = JMark (nextMark (Z.of_nat n))
       ∧ ∀ j, j ≠ i → aget (squares s') j = aget (squares s) j.
Proof.
  intros (Hlen & Hp & _) (_ & Hp' & _) (i & Hi & Hlast & Hnull & Hitems).
  exists i. unfold aget. rewrite Hitems, Hp, Hp'.
  rewrite is_array_index_cell by done.
  split_and!; [lia|lia|done|by rewrite Hnull|..].
  - rewrite list_lookup_insert_eq; [done|lia].
  - intros j Hj. destruct (is_array_index j) eqn:Hidx; [|done].
    unfold is_array_index in Hidx. apply andb_true_iff in Hidx as [H0%Z.leb_le _].
    rewrite list_lookup_insert_ne; [done|lia].
Qed.

(** ** Counting marks *)

Lemma length_filter_insert (P : value → Prop) `{∀ v, Decision (P v)}
    (l : list value) (p : nat) (x y : value) :
  l !! p = Some x →
  (length (filter P (<[p := y]> l)) + hit P x
   = length (filter P l) + hit P y)%nat.
Proof.
  intros Hx. pose proof (lookup_lt_Some _ _ _ Hx) as Hp.
  rewrite insert_take_drop by done.
  rewrite <- (take_drop_middle l p x Hx) at 3.
  rewrite !filter_app, !filter_cons, !length_app. unfold hit.
  destruct (decide (P x)), (decide (P y)); simpl; lia.
Qed.

Lemma count_cells_one_move (P : value → Prop) `{∀ v, Decision (P v)} n s s' :
  one_move n s s' →
  (count_cells P (squares s') + hit P JNull
   = count_cells P (squares s) + hit P (JMark (nextMark (Z.of_nat n))))%nat.
Proof.
  intros (i & _ & _ & Hnull & Hitems). unfold count_cells.
  rewrite Hitems. by apply length_filter_insert.
Qed.

Lemma nextMark_cases (n : nat) :
  (nextMark (Z.of_nat n) = X ∧ (Z.of_nat n + 2) / 2 = (Z.of_nat n + 1) / 2 + 1
                            ∧ (Z.of_nat n + 1) / 2 = Z.of_nat n / 2)
  ∨ (nextMark (Z.of_nat n) = O ∧ (Z.of_nat n + 2) / 2 = (Z.of_nat n + 1) / 2
                               ∧ (Z.of_nat n + 1) / 2 = Z.of_nat n / 2 + 1).
Proof.
  rewrite nextMark_parity. destruct (Z.even (Z.of_nat n)) eqn:He.
  - left. apply Z.even_spec in He as [q Hq]. rewrite Hq.
    split; [done|]. split; Z.div_mod_to_equations; lia.
  - right. rewrite <- Z.negb_odd in He. apply negb_false_iff, Z.odd_spec in He as [q Hq].
    rewrite Hq. split; [done|]. split; Z.div_mod_to_equations; lia.
Qed.

Lemma chain_inv_counts st (k : nat) s :
  chain_inv st → history st !! k = Some s →
  count_cells (λ v, v ≠ JNull) (squares s) = k
  ∧ Z.of_nat (count_cells (λ v, v = JMark X) (squares s)) = (Z.of_nat k + 1) / 2
  ∧ Z.of_nat (count_cells (λ v, v = JMark O) (squares s)) = Z.of_nat k / 2.
Proof.
  intros (Hwf & H0 & Hchain). revert s. induction k as [|n IH]; intros s Hs.
  - assert (s = empty_snapshot) as -> by congruence. done.
  - destruct (lookup_lt_is_Some_2 (history st) n) as [s0 Hs0].
    { apply lookup_lt_Some in Hs. lia. }
    destruct (IH s0 Hs0) as (IHn & IHx & IHo).
    pose proof (Hchain n s0 s Hs0 Hs) as Hmove.
    pose proof (count_cells_one_move (λ v, v ≠ JNull) n s0 s Hmove) as Hn.
    pose proof (count_cells_one_move (λ v, v = JMark X) n s0 s Hmove) as Hx.
    pose proof (count_cells_one_move (λ v, v = JMark O) n s0 s Hmove) as Ho.
    replace (Z.of_nat (S n) + 1) with (Z.of_nat n + 2) by lia.
    replace (Z.of_nat (S n)) with (Z.of_nat n + 1) by lia.
    unfold hit in Hn, Hx, Ho.
    destruct (nextMark_cases n) as [(Hm & E1 & E2)|(Hm & E1 & E2)];
      rewrite Hm in Hn, Hx, Ho; rewrite E1, E2;
      repeat case_decide; try done; lia.
Qed.

(** ** The store model: no array is written after it is stored *)

Lemma Store_current_in_range hst hcur :
  Store.current hst = Some hcur →
  0 ≤ Store.currentStep hst < Z.of_nat (length (Store.history hst))
  ∧ Store.history hst !! Z.to_nat (Store.currentStep hst) = Some hcur.
Proof.
  unfold Store.current, history_get.
  destruct (Z.leb_spec 0 (Store.currentStep hst)); [|done].
  intros Hl. pose proof (lookup_lt_Some _ _ _ Hl). split; [lia|done].
Qed.

(** The two outcomes of a click in the store model: nothing happens, or
    one array is allocated, written once, and stored in a new last
    snapshot. *)
Lemma Store_handleSquareClick_cases hst i hst' :
  Store.handleSquareClick hst i = Some hst' →
  ∃ hcur board,
    Store.current hst = Some hcur
    ∧ Store.heap hst !! Store.squares hcur = Some board
    ∧ if truthy (winner_at board) || truthy (aget board i)
      then hst' = hst
      else hst' = {| Store.heap :=
                       Store.heap hst
                       ++ [aset (slice board) i (JMark (nextMark (Store.currentStep hst)))];
                     Store.history :=
                       take (S (Z.to_nat (Store.currentStep hst))) (Store.history hst)
                       ++ [ {| Store.squares := length (Store.heap hst);
                               Store.lastMove := Some i |} ];
                     Store.currentStep := Store.currentStep hst + 1 |}.
Proof.
  unfold Store.handleSquareClick.
  destruct (Store.current hst) as [hcur|] eqn:Hcur; [|done]. simpl.
  destruct (Store.heap hst !! Store.squares hcur) as [board|] eqn:Hboard; [|done].
  simpl. intros Hstep. exists hcur, board. split_and!; [done..|].
  destruct (truthy (winner_at board) || truthy (aget board i)).
  - by injection Hstep as <-.
  - injection Hstep as <-.
    destruct (Store_current_in_range _ _ Hcur) as [Hr _].
    rewrite length_history_slice0_succ, history_slice0_succ by lia.
    f_equal.
    rewrite <- (Nat.add_0_r (length (Store.heap hst))) at 1.
    by rewrite alter_app_r.
Qed.

(** Every operation leaves the arrays already in the store as they are:
    the store only grows. *)
Lemma Store_step_heap_prefix hst hst' :
  Store.step hst hst' → Store.heap hst `prefix_of` Store.heap hst'.
Proof.
  intros [i ? _ Hstep|k _|].
  - apply Store_handleSquareClick_cases in Hstep as (hcur & board & _ & _ & Hcase).
    destruct (truthy (winner_at board) || truthy (aget board i)); subst; [done|].
    simpl. by apply prefix_app_r.
  - done.
  - simpl. by apply prefix_app_r.
Qed.

Lemma represents_snapshot_prefix heap heap' hs s :
  heap `prefix_of` heap' →
  represents_snapshot heap hs s → represents_snapshot heap' hs s.
Proof.
  intros Hpre [Hsq Hlast]. split; [|done]. by eapply prefix_lookup_Some.
Qed.

Lemma represents_current hst st hcur :
  represents hst st → Store.current hst = Some hcur →
  ∃ cur, current st = Some cur ∧ represents_snapshot (Store.heap hst) hcur cur.
Proof.
  intros [Hstep Hhist] [Hr Hcur]%Store_current_in_range.
  destruct (Forall2_lookup_l _ _ _ _ _ Hhist Hcur) as (cur & Hl & Hrep).
  exists cur. split; [|done]. apply current_Some. rewrite <- Hstep. split; [lia|done].
Qed.

(** The store model and the value model take the same steps. *)
Lemma represents_step hst hst' st :
  represents hst st → Store.step hst hst' →
  ∃ st', step st st' ∧ represents hst' st'.
Proof.
  intros Hrep Hstep. pose proof Hrep as [Hcs Hhist].
  destruct Hstep as [i ? Hi Hclick|k Hk|].
  - apply Store_handleSquareClick_cases in Hclick
      as (hcur & board & Hhcur & Hboard & Hcase).
    destruct (represents_current _ _ _ Hrep Hhcur) as (cur & Hcur & Hsq & _).
    assert (board = squares cur) as -> by congruence.
    destruct (truthy (winner_at (squares cur)) || truthy (aget (squares cur) i)) eqn:Hg;
      subst.
    + exists st. split; [|done]. econstructor; [done|].
      by apply (handleSquareClick_ignored st cur).
    + eexists. split.
      { econstructor; [done|]. by apply (handleSquareClick_accepted st cur). }
      split; simpl; [by rewrite Hcs|]. rewrite Hcs.
      apply Forall2_app.
      * apply Forall2_take. eapply Forall2_impl; [exact Hhist|].
        intros hs s. apply represents_snapshot_prefix. by apply prefix_app_r.
      * constructor; [|constructor]. split; [|done]. simpl.
        rewrite lookup_app_r, Nat.sub_diag by lia. done.
  - exists (jumpTo st k). split.
    + constructor. by rewrite <- (Forall2_length _ _ _ Hhist).
    + by split.
  - exists (restart st). split; [constructor|]. split; [done|]. simpl.
    constructor; [|constructor]. split; [|done]. simpl.
    rewrite lookup_app_r, Nat.sub_diag by lia. done.
Qed.

Lemma represents_initial : represents Store.initial_state initial_state.
Proof. split; [done|]. constructor; [|constructor]. by split. Qed.

Lemma Store_reachable_represents hst :
  Store.reachable hst → ∃ st, reachable st ∧ represents hst st.
Proof.
  induction 1 as [|hst hst' _ (st & Hreach & Hrep) Hstep].
  - exists initial_state. split; [constructor|apply represents_initial].
  - destruct (represents_step _ _ _ Hrep Hstep) as (st' & Hstep' & Hrep').
    exists st'. split; [|done]. by econstructor.
Qed.


(** ** Arguments out of range *)

Lemma aget_board_out_of_range board i :
  is_board board → ¬ (0 ≤ i ≤ 8) → aget board i = JUndefined.
Proof.
  intros (Hlen & Hp & _) Hi. unfold aget. rewrite Hp, lookup_empty.
  destruct (is_array_index i) eqn:Hidx; [|done].
  unfold is_array_index in Hidx. apply andb_true_iff in Hidx as [H0%Z.leb_le _].
  rewrite lookup_ge_None_2; [done|lia].
Qed.

Lemma aset_slice_out_of_range board i v :
  is_board board → ¬ (0 ≤ i ≤ 8) →
  aset (slice board) i v
  = if is_array_index i
    then {| items := items board ++ replicate (Z.to_nat i - 9) JUndefined ++ [v];
            props := ∅ |}
    else {| items := items board; props := {[ i := v ]} |}.
Proof.
  intros (Hlen & _ & _) Hi. unfold aset, slice. simpl.
  destruct (is_array_index i) eqn:Hidx; [|done].
  unfold is_array_index in Hidx. apply andb_true_iff in Hidx as [H0%Z.leb_le _].
  case_decide; [lia|]. by rewrite Hlen.
Qed.

Lemma aset_slice_out_of_range_not_board board i v :
  is_board board → ¬ (0 ≤ i ≤ 8) → ¬ is_board (aset (slice board) i v).
Proof.
  intros Hb Hi. rewrite aset_slice_out_of_range by done.
  destruct Hb as (Hlen & _ & _).
  destruct (is_array_index i); intros (Hlen' & Hp' & _); cbn [items props] in *.
  - rewrite !length_app, length_replicate, Hlen in Hlen'. cbn [length] in Hlen'. lia.
  - by apply map_non_empty_singleton in Hp'.
Qed.

(** C5, as the code has it.  Neither handler checks its argument.  A
    jump to a step outside the history leaves the history as it is and
    stores the step as given, so that no current snapshot exists.  A
    click on an index outside [0, 8] is ignored when there is a winner;
    otherwise it is accepted as any move: the snapshots up to the cursor
    are kept, with their boards of 9 cells, the cursor moves to the
    appended snapshot, and the appended board is the current one with
    the mark stored at that index, beyond the 9 cells or as a property
    of the array. *)
Theorem out_of_range_arguments_not_checked (st : state) :
  wf_state st →
  (∀ k, ¬ (0 ≤ k < Z.of_nat (length (history st))) →
        history (jumpTo st k) = history st
        ∧ currentStep (jumpTo st k) = k
        ∧ current (jumpTo st k) = None
        ∧ ∀ i, handleSquareClick (jumpTo st k) i = None)
  ∧ (∀ i cur, ¬ (0 ≤ i ≤ 8) → current st = Some cur →
        (calculateWinner (squares cur) ≠ None → handleSquareClick st i = Some st)
        ∧ (calculateWinner (squares cur) = None →
             let kept := take (S (Z.to_nat (currentStep st))) (history st) in
             let snap := appended_snapshot st cur i in
             handleSquareClick st i
             = Some {| history := kept ++ [snap]; currentStep := currentStep st + 1 |}
             ∧ Forall (λ s, is_board (squares s)) kept
             ∧ currentStep st + 1 = Z.of_nat (length (kept ++ [snap])) - 1
             ∧ lastMove snap = Some i
             ∧ take 9 (items (squares snap)) = items (squares cur)
             ∧ aget (squares snap) i = JMark (nextMark (currentStep st))
             ∧ squares snap
               = (if is_array_index i
                  then {| items := items (squares cur)
                                   ++ replicate (Z.to_nat i - 9) JUndefined
                                   ++ [JMark (nextMark (currentStep st))];
                          props := ∅ |}
                  else {| items := items (squares cur);
                          props := {[ i := JMark (nextMark (currentStep st)) ]} |})
             ∧ ¬ is_board (squares snap))).
Proof.
  intros Hwf. split.
  - intros k Hk. split_and!; [done|done| |].
    + by apply current_None.
    + intros i. apply handleSquareClick_None. by apply current_None.
  - intros i cur Hi Hcur.
    pose proof (wf_current_board _ _ Hwf Hcur) as Hb.
    pose proof (current_in_range _ _ Hcur) as Hr.
    split.
    + intros Hw. apply (handleSquareClick_ignored st cur i Hcur).
      apply orb_true_iff. left. by apply truthy_winner_at.
    + intros Hw kept snap. subst kept snap. unfold appended_snapshot.
      cbn [squares lastMove].
      split_and!.
      * apply (handleSquareClick_accepted st cur i Hcur).
        unfold winner_at. by rewrite Hw, aget_board_out_of_range.
      * apply Forall_take. by destruct Hwf.
      * rewrite length_app, length_take. cbn [length]. lia.
      * done.
      * rewrite aset_slice_out_of_range by done.
        destruct Hb as (Hlen & _ & _).
        destruct (is_array_index i); cbn [items].
        -- by rewrite take_app_length' by done.
        -- by rewrite take_ge by lia.
      * apply aget_aset_eq.
      * by apply aset_slice_out_of_range.
      * by apply aset_slice_out_of_range_not_board.
Qed.

(** C5 at the initial state: a jump to step 1 and a click on index 9. *)
Lemma out_of_range_arguments_not_checked_witness :
  current (jumpTo initial_state 1) = None
  ∧ handleSquareClick initial_state 9
    = Some {| history :=
                [ empty_snapshot;
                  {| squares := board_of [JNull; JNull; JNull; JNull; JNull;
                                          JNull; JNull; JNull; JNull; JMark X];
                     lastMove := Some 9 |} ];
              currentStep := 1 |}.
Proof.
  assert (Hwf : wf_state initial_state) by by_decision.
  destruct (out_of_range_arguments_not_checked initial_state Hwf) as [Hjump Hclick].
  split.
  - refine (proj1 (proj2 (proj2 (Hjump 1 _)))). simpl. lia.
  - destruct (Hclick 9 empty_snapshot) as [_ Happ]; [lia|reflexivity|].
    exact (proj1 (Happ eq_refl)).
Defined.

(** C5 as stated fails: from the initial state, a jump to step 1 leaves
    the cursor outside the one-entry history, and a click on index 9
    stores a board of 10 cells. *)
Lemma out_of_range_corrupts_state_counterexample :
  wf_state initial_state
  ∧ ¬ (0 ≤ 1 < Z.of_nat (length (history initial_state)))
  ∧ ¬ wf_state (jumpTo initial_state 1)
  ∧ ¬ (0 ≤ 9 ≤ 8)
  ∧ (∃ st', handleSquareClick initial_state 9 = Some st'
            ∧ (length ∘ items ∘ squares <$> history st') = [9%nat; 10%nat]
            ∧ ¬ wf_state st')
  ∧ ¬ out_of_range_keeps_state_well_formed.
Proof.
  assert (Hwf : wf_state initial_state) by by_decision.
  assert (Hjump : ¬ wf_state (jumpTo initial_state 1)).
  { intros [Hr _]. simpl in Hr. lia. }
  split_and!; [done|simpl; lia|done|lia| |].
  - eexists. split; [reflexivity|]. split; [reflexivity|].
    intros [_ Hb]. apply Forall_cons in Hb as [_ Hb].
    apply Forall_cons in Hb as [(Hlen & _) _]. simpl in Hlen. lia.
  - intros Hsafe. destruct (Hsafe initial_state Hwf) as [_ Hj].
    apply Hjump, Hj. simpl. lia.
Qed.

(** ** The history of a reachable state *)

(** C9. In every reachable state the history is a chain of single
    moves: snapshot 0 is the empty board with no last move, and each
    later snapshot is the one before it with exactly one cell changed,
    the cell named by its [lastMove], from empty to a mark.  No
    operation writes to an array that a stored snapshot holds: in the
    store model every array present before a step is present, with the
    same contents, after it, and the store states reached are those of
    the value model. *)
Theorem history_is_chain_of_single_moves :
  (∀ st, reachable st →
     history st !! 0%nat = Some empty_snapshot
     ∧ items (squares empty_snapshot) = replicate 9 JNull
     ∧ lastMove empty_snapshot = None
     ∧ ∀ (n : nat) s s',
         history st !! n = Some s → history st !! S n = Some s' →
         is_board (squares s) ∧ is_board (squares s')
         ∧ ∃ i m,
             0 ≤ i ≤ 8
             ∧ lastMove s' = Some i
             ∧ aget (squares s) i = JNull
             ∧ aget (squares s') i = JMark m
             ∧ ∀ j, j ≠ i → aget (squares s') j = aget (squares s) j)
  ∧ (∀ hst hst', Store.reachable hst → Store.step hst hst' →
       (∀ r a, Store.heap hst !! r = Some a → Store.heap hst' !! r = Some a)
       ∧ ∃ st st',
           reachable st ∧ represents hst st
           ∧ step st st' ∧ represents hst' st').
Proof.
  split.
  - intros st ((_ & Hboards) & H0 & Hchain)%reachable_chain_inv.
    split_and!; [done..|].
    intros n s s' Hs Hs'.
    pose proof (Forall_lookup_1 _ _ _ _ Hboards Hs) as Hb.
    pose proof (Forall_lookup_1 _ _ _ _ Hboards Hs') as Hb'.
    split_and!; [done..|].
    destruct (one_move_cells n s s' Hb Hb' (Hchain n s s' Hs Hs'))
      as (i & Hi & Hlast & Hnull & Hmark & Hrest).
    by exists i, (nextMark (Z.of_nat n)).
  - intros hst hst' Hreach Hstep. split.
    + intros r a Ha.
      by apply (prefix_lookup_Some _ _ _ _ Ha), Store_step_heap_prefix.
    + destruct (Store_reachable_represents _ Hreach) as (st & Hst & Hrep).
      destruct (represents_step _ _ _ Hrep Hstep) as (st' & Hstep' & Hrep').
      by exists st, st'.
Qed.

(** C9 at the state after X on 0 and O on 4, and for the first click of
    a game in the store model. *)
Lemma history_is_chain_of_single_moves_witness :
  (∃ i m,
     0 ≤ i ≤ 8
     ∧ aget (board_of [JMark X; JNull; JNull; JNull; JNull; JNull; JNull; JNull; JNull]) i
       = JNull
     ∧ aget (board_of [JMark X; JNull; JNull; JNull; JMark O; JNull; JNull; JNull; JNull]) i
       = JMark m)
  ∧ ∃ hst', Store.handleSquareClick Store.initial_state 0 = Some hst'
            ∧ Store.heap hst' !! 0%nat = Some (array_fill 9 JNull).
Proof.
  destruct history_is_chain_of_single_moves as [Hchain Hstore]. split.
  - destruct (Hchain (jumpTo state_rewound 2)) as (_ & _ & _ & Hmoves).
    + apply (reachable_step {| history := take 2 (history state_rewound);
                               currentStep := 1 |}).
      * apply (reachable_step initial_state); [apply reachable_init|].
        apply (step_place _ 0); [lia|reflexivity].
      * apply (step_place _ 4); [lia|reflexivity].
    + destruct (Hmoves 1%nat _ _ eq_refl eq_refl)
        as (_ & _ & i & m & Hi & _ & Hnull & Hmark & _).
      exists i, m.
      split_and!; [exact (proj1 Hi)|exact (proj2 Hi)|exact Hnull|exact Hmark].
  - eexists. split; [reflexivity|].
    refine (proj1 (Hstore Store.initial_state _ Store.reachable_init _) 0%nat _ eq_refl).
    apply (Store.step_place _ 0); [lia|reflexivity].
Defined.

(** C10. In every reachable state the board of snapshot [k] holds
    exactly [k] marks, [(k + 1) / 2] of them X and [k / 2] of them O,
    so X is never behind O and never more than one ahead. *)
Theorem reachable_board_mark_counts (st : state) (k : nat) (s : snapshot) :
  reachable st →
  history st !! k = Some s →
  count_cells (λ v, v ≠ JNull) (squares s) = k
  ∧ Z.of_nat (count_cells (λ v, v = JMark X) (squares s)) = (Z.of_nat k + 1) / 2
  ∧ Z.of_nat (count_cells (λ v, v = JMark O) (squares s)) = Z.of_nat k / 2
  ∧ (count_cells (λ v, v = JMark O) (squares s)
     ≤ count_cells (λ v, v = JMark X) (squares s)
     ≤ count_cells (λ v, v = JMark O) (squares s) + 1)%nat.
Proof.
  intros Hinv%reachable_chain_inv Hs.
  destruct (chain_inv_counts st k s Hinv Hs) as (Hn & Hx & Ho).
  split_and!; [done..| |].
  - apply Nat2Z.inj_le. rewrite Hx, Ho. Z.div_mod_to_equations. lia.
  - apply Nat2Z.inj_le. rewrite Nat2Z.inj_add, Hx, Ho.
    Z.div_mod_to_equations. lia.
Qed.

(** C10 at the state after X on 0 and O on 4, for its last snapshot. *)
Lemma reachable_board_mark_counts_witness :
  count_cells (λ v, v ≠ JNull)
    (board_of [JMark X; JNull; JNull; JNull; JMark O; JNull; JNull; JNull; JNull])
  = 2%nat.
Proof.
  refine (proj1 (reachable_board_mark_counts (jumpTo state_rewound 2) 2
                   {| squares := board_of [JMark X; JNull; JNull; JNull; JMark O;
                                           JNull; JNull; JNull; JNull];
                      lastMove := Some 4 |} _ eq_refl)).
  apply (reachable_step {| history := take 2 (history state_rewound); currentStep := 1 |}).
  - apply (reachable_step initial_state); [apply reachable_init|].
    apply (step_place _ 0); [lia|reflexivity].
  - apply (step_place _ 4); [lia|reflexivity].
Defined.

(** * Further properties of the engine *)

(** ** Won positions *)

Lemma calculateWinner_None_falsy board :
  truthy (winner_at board) = false → calculateWinner board = None.
Proof.
  intros Hf. destruct (calculateWinner board) eqn:Hw; [|done].
  assert (truthy (winner_at board) = true) by (apply truthy_winner_at; congruence).
  congruence.
Qed.

Lemma won_only_last_handleSquareClick st i st' :
  won_only_last st → handleSquareClick st i = Some st' → won_only_last st'.
Proof.
  intros Hinv Hstep.
  destruct (current st) as [cur|] eqn:Hcur;
    [|apply (proj2 (handleSquareClick_None st i)) in Hcur; congruence].
  destruct (truthy (winner_at (squares cur)) || truthy (aget (squares cur) i)) eqn:Hg.
  { rewrite (handleSquareClick_ignored _ _ _ Hcur Hg) in Hstep. by injection Hstep as <-. }
  rewrite (handleSquareClick_accepted _ _ _ Hcur Hg) in Hstep. injection Hstep as <-.
  pose proof (current_in_range _ _ Hcur) as Hr.
  apply current_Some in Hcur as [_ Hk].
  intros n s Hn Hs. cbn [history] in Hn, Hs.
  rewrite length_app, length_take in Hn. cbn [length] in Hn.
  rewrite lookup_app_l, lookup_take_lt in Hs by (rewrite ?length_take; lia).
  destruct (decide (n = Z.to_nat (currentStep st))) as [->|Hne].
  - assert (s = cur) as -> by congruence.
    apply calculateWinner_None_falsy. by apply orb_false_iff in Hg as [? _].
  - apply (Hinv n s); [lia|done].
Qed.

Lemma reachable_won_only_last st : reachable st → won_only_last st.
Proof.
  induction 1 as [|st st' _ IH [i ? _ Hstep|k _|]].
  - intros n s Hn. simpl in Hn. lia.
  - by eapply won_only_last_handleSquareClick.
  - done.
  - intros n s Hn. simpl in Hn. lia.
Qed.

Lemma lines_distinct : Forall line_distinct lines.
Proof. unfold lines, line_distinct. repeat constructor; lia. Qed.

(** Three different positions holding values that satisfy [P] count at
    least three. *)
Lemma length_filter_three (P : value → Prop) `{∀ v, Decision (P v)}
    (l : list value) (pa pb pc : nat) (va vb vc : value) :
  pa ≠ pb → pa ≠ pc → pb ≠ pc →
  l !! pa = Some va → l !! pb = Some vb → l !! pc = Some vc →
  P va → P vb → P vc → ¬ P JNull →
  (3 ≤ length (filter P l))%nat.
Proof.
  intros Hab Hac Hbc Ha Hb Hc Pa Pb Pc Pn.
  pose proof (length_filter_insert P l pa va JNull Ha) as E1.
  assert (Hb1 : <[pa := JNull]> l !! pb = Some vb) by by rewrite list_lookup_insert_ne.
  pose proof (length_filter_insert P _ pb vb JNull Hb1) as E2.
  assert (Hc1 : <[pb := JNull]> (<[pa := JNull]> l) !! pc = Some vc).
  { by rewrite !list_lookup_insert_ne. }
  pose proof (length_filter_insert P _ pc vc JNull Hc1) as E3.
  unfold hit in E1, E2, E3. repeat case_decide; try done; lia.
Qed.

Lemma line_complete_marks squares a b c :
  line_complete squares (a, b, c) = true ↔
  ∃ m, aget squares a = JMark m ∧ aget squares b = JMark m ∧ aget squares c = JMark m.
Proof.
  unfold line_complete, strict_eq.
  rewrite !andb_true_iff, !bool_decide_eq_true, truthy_mark. split.
  - intros [[[m Hm] Hb] Hc]. exists m. by rewrite <- Hb, <- Hc.
  - intros (m & Ha & Hb & Hc). rewrite Ha, Hb, Hc. eauto.
Qed.

Lemma line_complete_ext squares squares' a b c :
  aget squares' a = aget squares a →
  aget squares' b = aget squares b →
  aget squares' c = aget squares c →
  line_complete squares' (a, b, c) = line_complete squares (a, b, c).
Proof. intros Ha Hb Hc. unfold line_complete. by rewrite Ha, Hb, Hc. Qed.

Lemma calculateWinner_line squares w :
  calculateWinner squares = Some w →
  ∃ a b c m,
    (a, b, c) ∈ lines
    ∧ w = {| winner_of := JMark m; line_of := [a; b; c] |}
    ∧ aget squares a = JMark m ∧ aget squares b = JMark m ∧ aget squares c = JMark m.
Proof.
  intros (n & a & b & c & Hn & Hc & _ & ->)%scan_lines_Some.
  apply line_complete_marks in Hc as (m & Ha & Hb & Hc).
  exists a, b, c, m. split_and!; [|by rewrite Ha|done..].
  by eapply list_elem_of_lookup_2.
Qed.

(** The mover of the move that led to a won position is its winner, and
    that move lies on the winning line. *)
Lemma chain_inv_winner st (n : nat) s w :
  chain_inv st → won_only_last st →
  history st !! n = Some s → calculateWinner (squares s) = Some w →
  S n = length (history st)
  ∧ (5 ≤ n)%nat
  ∧ ∃ i, lastMove s = Some i
         ∧ i ∈ line_of w
         ∧ winner_of w = JMark (nextMark (Z.of_nat n - 1)).
Proof.
  intros Hinv Hlast Hs Hw. pose proof Hinv as ((_ & Hboards) & H0 & Hchain).
  pose proof (lookup_lt_Some _ _ _ Hs) as Hlt.
  assert (Hend : S n = length (history st)).
  { destruct (decide (S n < length (history st))%nat) as [Hn|]; [|lia].
    rewrite (Hlast n s Hn Hs) in Hw. done. }
  destruct n as [|p].
  { assert (s = empty_snapshot) as -> by congruence. done. }
  destruct (lookup_lt_is_Some_2 (history st) p) as [s0 Hs0]; [lia|].
  pose proof (Hlast p s0 ltac:(lia) Hs0) as Hw0.
  pose proof (Forall_lookup_1 _ _ _ _ Hboards Hs0) as Hb0.
  pose proof (Forall_lookup_1 _ _ _ _ Hboards Hs) as Hb.
  destruct (one_move_cells p s0 s Hb0 Hb (Hchain p s0 s Hs0 Hs))
    as (i & Hi & Hmove & _ & Hmark & Hrest).
  destruct (calculateWinner_line _ _ Hw) as (a & b & c & m & Hl & -> & Ha & Hb' & Hc).
  assert (Hon : i = a ∨ i = b ∨ i = c).
  { destruct (decide (i = a)), (decide (i = b)), (decide (i = c)); auto.
    assert (line_complete (squares s0) (a, b, c) = true) as Hc0.
    { rewrite <- (line_complete_ext (squares s0) (squares s)) by (apply Hrest; done).
      apply line_complete_marks. eauto. }
    rewrite (proj1 (scan_lines_None (squares s0) lines) Hw0 _ Hl) in Hc0. done. }
  assert (Hm : m = nextMark (Z.of_nat p)).
  { destruct Hon as [->|[->| ->]]; congruence. }
  split_and!; [done| |].
  - pose proof (proj1 (Forall_forall _ _) lines_in_range _ Hl) as (Ra & Rb & Rc).
    pose proof (proj1 (Forall_forall _ _) lines_distinct _ Hl) as (Dab & Dac & Dbc).
    destruct (aget_board_lookup _ _ Hb Ra) as (va & Hva & Hga & _).
    destruct (aget_board_lookup _ _ Hb Rb) as (vb & Hvb & Hgb & _).
    destruct (aget_board_lookup _ _ Hb Rc) as (vc & Hvc & Hgc & _).
    assert (3 ≤ count_cells (λ v, v = JMark m) (squares s))%nat as Hcount.
    { unfold count_cells.
      apply (length_filter_three _ _ (Z.to_nat a) (Z.to_nat b) (Z.to_nat c) va vb vc);
        try done; try lia; congruence. }
    destruct (chain_inv_counts st (S p) s Hinv Hs) as (_ & Hx & Ho).
    destruct m.
    + apply Nat2Z.inj_le in Hcount. rewrite Hx in Hcount.
      revert Hcount. Z.div_mod_to_equations. lia.
    + apply Nat2Z.inj_le in Hcount. rewrite Ho in Hcount.
      revert Hcount. Z.div_mod_to_equations. lia.
  - exists i. split_and!; [done| |].
    + simpl. rewrite !elem_of_cons. tauto.
    + simpl. rewrite Hm. f_equal. f_equal. lia.
Qed.

(** X1. In a reachable state a won position is the last snapshot of the
    history and has at least 5 moves behind it; its winner is the
    player who made its last move, and that move is one of the three
    cells of the winning line. *)
Theorem winner_made_the_last_move (st : state) (n : nat) (s : snapshot) (w : winnerInfo) :
  reachable st →
  history st !! n = Some s →
  calculateWinner (squares s) = Some w →
  S n = length (history st)
  ∧ (5 ≤ n)%nat
  ∧ ∃ i, lastMove s = Some i
         ∧ i ∈ line_of w
         ∧ winner_of w = JMark (nextMark (Z.of_nat n - 1)).
Proof.
  intros Hreach. apply chain_inv_winner.
  - by apply reachable_chain_inv.
  - by apply reachable_won_only_last.
Qed.

(** X1 at the won sample state: X wins with move 5, played on cell 2. *)
Lemma winner_made_the_last_move_witness :
  ∃ i, Some 2 = Some i
       ∧ i ∈ [0; 1; 2]
       ∧ JMark X = JMark (nextMark (5 - 1)).
Proof.
  refine (proj2 (proj2 (winner_made_the_last_move state_won 5
            {| squares := board_x_top_row; lastMove := Some 2 |}
            {| winner_of := JMark X; line_of := [0; 1; 2] |} _ eq_refl eq_refl))).
  apply (reachable_step {| history := take 5 (history state_won); currentStep := 4 |});
    [|apply (step_place _ 2); [lia|reflexivity]].
  apply (reachable_step {| history := take 4 (history state_won); currentStep := 3 |});
    [|apply (step_place _ 5); [lia|reflexivity]].
  apply (reachable_step {| history := take 3 (history state_won); currentStep := 2 |});
    [|apply (step_place _ 1); [lia|reflexivity]].
  apply (reachable_step {| history := take 2 (history state_won); currentStep := 1 |});
    [|apply (step_place _ 4); [lia|reflexivity]].
  apply (reachable_step initial_state); [apply reachable_init|].
  apply (step_place _ 0); [lia|reflexivity].
Defined.

(** Clicks on cells from the start of a game lead to reachable states. *)
Lemma play_reachable moves st :
  Forall (λ i, 0 ≤ i ≤ 8) moves → play moves = Some st → reachable st.
Proof.
  revert st. induction moves as [|i moves IH] using rev_ind; intros st Hmoves Hplay.
  - injection Hplay as <-. constructor.
  - apply Forall_app in Hmoves as [Hmoves Hi]. apply Forall_cons in Hi as [Hi _].
    unfold play in Hplay. rewrite foldl_app in Hplay. simpl in Hplay.
    fold (play moves) in Hplay.
    destruct (play moves) as [st0|] eqn:Hst0; [|done]. simpl in Hplay.
    apply (reachable_step st0); [by apply IH|]. by apply (step_place _ i).
Qed.

(** ** The length of a game *)

Lemma length_filter_all (P : value → Prop) `{∀ v, Decision (P v)} (l : list value) :
  length (filter P l) = length l ↔ Forall P l.
Proof.
  induction l as [|x l IH].
  - split; [constructor|done].
  - rewrite filter_cons, Forall_cons. pose proof (length_filter P l) as Hle.
    destruct (decide (P x)); simpl.
    + rewrite <- IH. split; [intros; split; [done|lia]|intros [_ ?]; lia].
    + split; [lia|tauto].
Qed.

Lemma every_not_null_Forall squares :
  every (λ s, negb (strict_eq s JNull)) squares = true
  ↔ Forall (λ v, v ≠ JNull) (items squares).
Proof.
  unfold every, strict_eq. rewrite <- Is_true_true, forallb_True.
  apply Forall_proper; [|done]. intros v.
  rewrite negb_True, bool_decide_spec. done.
Qed.

Lemma chain_inv_step_bound st (k : nat) s :
  chain_inv st → history st !! k = Some s → (k ≤ 9)%nat.
Proof.
  intros Hinv Hs. destruct (chain_inv_counts st k s Hinv Hs) as (Hk & _ & _).
  pose proof Hinv as ((_ & Hboards) & _ & _).
  destruct (Forall_lookup_1 _ _ _ _ Hboards Hs) as (Hlen & _ & _).
  rewrite <- Hk, <- Hlen. apply length_filter.
Qed.

(** X2. A reachable history never has more than 10 snapshots, and the
    cursor never passes 9: a game is over after 9 accepted moves. *)
Theorem reachable_history_bounded (st : state) :
  reachable st →
  (1 ≤ length (history st) ≤ 10)%nat ∧ 0 ≤ currentStep st ≤ 9.
Proof.
  intros Hinv%reachable_chain_inv. pose proof Hinv as ((Hr & _) & H0 & _).
  pose proof (lookup_lt_Some _ _ _ H0) as Hpos.
  destruct (lookup_lt_is_Some_2 (history st) (length (history st) - 1)) as [s Hs];
    [lia|].
  pose proof (chain_inv_step_bound st _ s Hinv Hs). lia.
Qed.

(** X2 at the won sample state. *)
Lemma reachable_history_bounded_witness :
  (1 ≤ length (history (jumpTo state_rewound 2)) ≤ 10)%nat
  ∧ 0 ≤ currentStep (jumpTo state_rewound 2) ≤ 9.
Proof.
  apply reachable_history_bounded.
  apply (reachable_step {| history := take 2 (history state_rewound); currentStep := 1 |}).
  - apply (reachable_step initial_state); [apply reachable_init|].
    apply (step_place _ 0); [lia|reflexivity].
  - apply (step_place _ 4); [lia|reflexivity].
Defined.

(** X3. In a reachable state a draw is only ever reported at step 9,
    and at step 9 the board is full: every click on a cell is ignored,
    and the status is a draw or a win of X, never "Next Player" and
    never a win of O. *)
Theorem step_nine_ends_the_game (st : state) (cur : snapshot) :
  reachable st →
  current st = Some cur →
  (isDraw st = Some true → currentStep st = 9)
  ∧ (currentStep st = 9 →
       board_full (squares cur)
       ∧ (∀ i, 0 ≤ i ≤ 8 → handleSquareClick st i = Some st)
       ∧ (statusText st = Some "Draw! No moves left."%string
          ∨ statusText st = Some "Winner: X"%string)).
Proof.
  intros Hreach Hcur.
  pose proof (reachable_chain_inv _ Hreach) as Hinv.
  pose proof Hinv as (Hwf & _ & _).
  pose proof (wf_current_board _ _ Hwf Hcur) as Hb.
  apply current_Some in Hcur as Hk. destruct Hk as [H0 Hk].
  destruct (chain_inv_counts st _ cur Hinv Hk) as (Hcount & _ & _).
  pose proof Hb as (Hlen & _ & _). unfold count_cells in Hcount.
  split.
  - unfold isDraw. rewrite Hcur. simpl. intros [= Hdraw].
    unfold isDraw_at in Hdraw. apply andb_true_iff in Hdraw as [_ Hall].
    apply every_not_null_Forall in Hall.
    apply (proj2 (length_filter_all (λ v, v ≠ JNull) _)) in Hall. lia.
  - intros H9.
    assert (Hall : Forall (λ v, v ≠ JNull) (items (squares cur))).
    { apply (proj1 (length_filter_all (λ v, v ≠ JNull) _)). lia. }
    assert (Hfull : board_full (squares cur)).
    { apply every_not_null_board_full; [done|]. by apply every_not_null_Forall. }
    split_and!; [done| |].
    + intros i Hi. apply (handleSquareClick_ignored st cur i Hcur).
      apply orb_true_iff. right. apply cell_truthy; [by apply aget_board_cell|auto].
    + unfold statusText, statusText_at. rewrite Hcur. simpl.
      destruct (calculateWinner (squares cur)) as [w|] eqn:Hw.
      * right.
        destruct (chain_inv_winner st _ cur w Hinv (reachable_won_only_last _ Hreach) Hk Hw)
          as (_ & _ & i & _ & _ & Hwin).
        unfold winner_at. rewrite Hw, Hwin.
        by replace (Z.of_nat (Z.to_nat (currentStep st)) - 1) with 8 by lia.
      * left. unfold isDraw_at, winner_at. rewrite Hw. simpl.
        by rewrite (proj2 (every_not_null_Forall _) Hall).
Qed.

(** X3 at the end of a drawn game. *)
Lemma step_nine_ends_the_game_witness :
  handleSquareClick state_drawn 4 = Some state_drawn
  ∧ statusText state_drawn = Some "Draw! No moves left."%string.
Proof.
  assert (Hreach : reachable state_drawn).
  { apply (play_reachable [0; 1; 2; 4; 3; 5; 7; 6; 8]); [by_decision|reflexivity]. }
  destruct (step_nine_ends_the_game state_drawn
              {| squares := board_of [JMark X; JMark O; JMark X;
                                      JMark X; JMark O; JMark O;
                                      JMark O; JMark X; JMark X];
                 lastMove := Some 8 |} Hreach eq_refl) as [_ Hnine].
  destruct (Hnine eq_refl) as (_ & Hclick & _).
  split; [apply Hclick; lia|reflexivity].
Defined.

(** ** The win detector on arbitrary arrays *)



Lemma scan_lines_ext squares squares' ls :
  Forall line_in_range ls →
  (∀ i, 0 ≤ i ≤ 8 → aget squares' i = aget squares i) →
  scan_lines squares' ls = scan_lines squares ls.
Proof.
  intros Hls Hext. induction Hls as [|[[a b] c] rest (Ra & Rb & Rc) _ IH]; [done|].
  cbn [scan_lines].
  rewrite (line_complete_ext squares squares') by (apply Hext; done).
  by rewrite IH, (Hext a Ra).
Qed.

(** X5. [calculateWinner] reads the squares 0 to 8 and nothing else:
    two arrays that agree there, whatever their lengths and other
    properties, get the same result. *)
Theorem calculateWinner_reads_nine_squares (squares squares' : jsarray) :
  (∀ i, 0 ≤ i ≤ 8 → aget squares' i = aget squares i) →
  calculateWinner squares' = calculateWinner squares.
Proof. apply scan_lines_ext, lines_in_range. Qed.

(** X5 for the board with X on the top row and the same board with a
    tenth element and a property [-1]. *)
Lemma calculateWinner_reads_nine_squares_witness :
  calculateWinner (aset (aset board_x_top_row 9 (JMark O)) (-1) (JMark O))
  = calculateWinner board_x_top_row.
Proof.
  apply calculateWinner_reads_nine_squares.
  intros i Hi. rewrite !aget_aset_ne by lia. reflexivity.
Defined.

Lemma aget_swap_array a i : aget (swap_array a) i = swap_value (aget a i).
Proof.
  unfold aget, swap_array. simpl.
  destruct (is_array_index i).
  - rewrite list_lookup_fmap. by destruct (items a !! Z.to_nat i).
  - rewrite lookup_fmap. by destruct (props a !! i).
Qed.

Lemma line_complete_swap a l :
  line_complete (swap_array a) l = line_complete a l.
Proof.
  destruct l as [[x y] z]. unfold line_complete, strict_eq.
  rewrite !aget_swap_array.
  destruct (aget a x) as [| |[]], (aget a y) as [| |[]], (aget a z) as [| |[]]; done.
Qed.

(** X6. The detector treats the two marks alike: exchanging X and O in
    every square exchanges them in the result and keeps the line. *)
Theorem calculateWinner_swap_marks (squares : jsarray) :
  calculateWinner (swap_array squares)
  = swap_winnerInfo <$> calculateWinner squares.
Proof.
  unfold calculateWinner. induction lines as [|[[a b] c] rest IH]; [done|].
  cbn [scan_lines]. rewrite line_complete_swap, IH, aget_swap_array.
  by destruct (line_complete squares (a, b, c)).
Qed.

(** * What the page shows *)

(** ** The buttons of each component *)

Lemma filter_flat_map {B C} (P : C → Prop) `{∀ x, Decision (P x)}
    (f : B → list C) (l : list B) :
  filter P (flat_map f l) = flat_map (λ x, filter P (f x)) l.
Proof.
  induction l as [|x l IH]; [done|]. simpl. by rewrite filter_app, IH.
Qed.

(** An element that is no button and has no handler contributes the
    buttons of its children. *)
Lemma buttons_wrap {A} tag attrs (children : list (element A)) :
  tag ≠ "button"%string →
  buttons (Elem tag attrs None children) = flat_map buttons children.
Proof.
  intros Htag. unfold buttons. cbn [descendants].
  rewrite filter_cons_False by (simpl; congruence).
  apply filter_flat_map.
Qed.

Lemma buttons_Text {A} s : buttons (@Text A s) = [].
Proof. done. Qed.

Lemma buttons_Square {A} v (onClick : A) index highlight :
  buttons (Square v onClick index highlight) = [Square v onClick index highlight].
Proof. by destruct v. Qed.

Lemma buttons_history_button {A} currentStep (onJumpTo : Z → A) step stepState :
  buttons (history_button currentStep onJumpTo step stepState)
  = [history_button currentStep onJumpTo step stepState].
Proof. done. Qed.

Lemma buttons_restart_button {A} (onClick : A) :
  buttons (restart_button onClick) = [restart_button onClick].
Proof. done. Qed.

Lemma buttons_Board {A} squares (onSquareClick : Z → A) winningLine :
  buttons (Board squares onSquareClick winningLine)
  = (λ i, Square (aget squares i) (onSquareClick i) i (isWinning winningLine i))
      <$> cell_indices.
Proof.
  unfold Board. rewrite buttons_wrap by done.
  cbn [fmap list_fmap flat_map]. rewrite !buttons_wrap by done.
  cbn [fmap list_fmap flat_map]. rewrite !buttons_wrap by done.
  cbn [flat_map]. rewrite !buttons_Square. reflexivity.
Qed.

Lemma buttons_history_items {A} currentStep (onJumpTo : Z → A) history :
  flat_map buttons (imap (history_item currentStep onJumpTo) history)
  = imap (history_button currentStep onJumpTo) history.
Proof.
  induction history as [|s history IH] using rev_ind; [done|].
  rewrite !imap_app, flat_map_app, IH. cbn [imap flat_map].
  unfold history_item. rewrite buttons_wrap by done.
  cbn [flat_map]. by rewrite buttons_history_button, !app_nil_r.
Qed.

Lemma buttons_MoveHistory {A} history currentStep (onJumpTo : Z → A) :
  buttons (MoveHistory history currentStep onJumpTo)
  = imap (history_button currentStep onJumpTo) history.
Proof.
  unfold MoveHistory. rewrite buttons_wrap by done. cbn [flat_map].
  rewrite !buttons_wrap by done. cbn [flat_map].
  rewrite buttons_Text, buttons_history_items, !app_nil_r. reflexivity.
Qed.

(** The buttons of the page: the nine squares, the restart button, and
    one button for each snapshot of the history. *)
Lemma buttons_App st cur view :
  current st = Some cur → App st = Some view →
  buttons view
  = ((λ i, Square (aget (squares cur) i) (handleSquareClick st i) i
             (isWinning (winningLine_at (squares cur)) i)) <$> cell_indices)
    ++ [restart_button (Some (restart st))]
    ++ imap (history_button (currentStep st) (λ step, Some (jumpTo st step)))
         (history st).
Proof.
  intros Hcur. unfold App. rewrite Hcur. simpl. intros [= <-].
  rewrite buttons_wrap by done. cbn [flat_map].
  rewrite buttons_wrap by done. cbn [flat_map].
  rewrite !(buttons_wrap "header"), !(buttons_wrap "div"), !(buttons_wrap "main"),
    !(buttons_wrap "section"), !(buttons_wrap "footer") by done.
  cbn [flat_map].
  rewrite !(buttons_wrap "h1"), !(buttons_wrap "span") by done. cbn [flat_map].
  rewrite !buttons_Text, buttons_Board, buttons_restart_button, buttons_MoveHistory.
  rewrite !app_nil_r. reflexivity.
Qed.

Lemma App_None st : App st = None ↔ current st = None.
Proof. unfold App. by destruct (current st). Qed.

(** ** The grid *)

(** X7. Whatever it is given, [Board] shows three rows of three
    squares; the square in row [r] and column [c] is the one of index
    [3 r + c]: it shows [squares[3 r + c]] and a click on it calls
    [onSquareClick(3 r + c)].  So the board has exactly nine buttons and
    the clicks it can deliver are those on the indices 0 to 8, each
    once. *)
Theorem Board_grid_is_row_major {A} (squares : jsarray) (onSquareClick : Z → A)
    (winningLine : option (list Z)) :
  let board := Board squares onSquareClick winningLine in
  length (children_of board) = 3%nat
  ∧ (∀ row, row ∈ children_of board → length (children_of row) = 3%nat)
  ∧ (∀ r c : nat, (r < 3)%nat → (c < 3)%nat →
       let i := 3 * Z.of_nat r + Z.of_nat c in
       grid_square board r c
       = Some (Square (aget squares i) (onSquareClick i) i (isWinning winningLine i)))
  ∧ length (buttons board) = 9%nat
  ∧ click_of <$> buttons board = (λ i, Some (onSquareClick i)) <$> cell_indices
  ∧ children_of <$> buttons board = (λ i, value_child (aget squares i)) <$> cell_indices.
Proof.
  intros board. subst board. split_and!.
  - done.
  - intros row Hrow. unfold Board in Hrow. cbn [children_of fmap list_fmap] in Hrow.
    rewrite !elem_of_cons in Hrow.
    destruct Hrow as [->|[->|[->|Hnil]]]; [done..|]. by apply not_elem_of_nil in Hnil.
  - intros r c Hr Hc i. subst i.
    destruct r as [|[|[|r]]]; [| | |lia];
      (destruct c as [|[|[|c]]]; [| | |lia]); reflexivity.
  - by rewrite buttons_Board.
  - by rewrite buttons_Board.
  - by rewrite buttons_Board.
Qed.

(** X7 for the middle square of a board. *)
Lemma Board_grid_is_row_major_witness :
  grid_square (Board board_x_top_row (λ i, i) None) 1 1
  = Some (Square (JMark O) 4 4 false).
Proof.
  refine (proj1 (proj2 (proj2
            (Board_grid_is_row_major board_x_top_row (λ i, i) None))) 1%nat 1%nat _ _); lia.
Defined.

(** ** The labels of the history list *)

Lemma row_col_of_index (r c : Z) :
  0 ≤ r → 0 ≤ c ≤ 2 → (3 * r + c) / 3 = r ∧ Z.rem (3 * r + c) 3 = c.
Proof.
  intros Hr Hc. split.
  - Z.div_mod_to_equations. lia.
  - rewrite Z.rem_mod_nonneg by lia. Z.div_mod_to_equations. lia.
Qed.

(** X8. [moveToText] names a move by the row and column, counted from
    1, of the square the grid shows for its index: for the square in
    row [r] and column [c] of the grid, of index [3 r + c], the label of
    a step other than 0 ends in [(r<r+1>, c<c+1>)].  Step 0 is labelled
    "Go to game start" whatever its last move, and a step without a
    last move gets the label without coordinates. *)
Theorem moveToText_names_the_grid_cell (step : Z) :
  (∀ lastMove, moveToText 0 lastMove = "Go to game start"%string)
  ∧ (step ≠ 0 → moveToText step None = "Go to move #" +:+ number_toString step)
  ∧ (step ≠ 0 → ∀ r c : Z, 0 ≤ r ≤ 2 → 0 ≤ c ≤ 2 →
       moveToText step (Some (3 * r + c))
       = "Go to move #" +:+ number_toString step
         +:+ " (r" +:+ number_toString (r + 1)
         +:+ ", c" +:+ number_toString (c + 1) +:+ ")")
  ∧ (∀ i, 0 ≤ i ≤ 8 → ∃ r c, 0 ≤ r ≤ 2 ∧ 0 ≤ c ≤ 2 ∧ i = 3 * r + c).
Proof.
  split_and!.
  - done.
  - intros Hstep. unfold moveToText. by destruct (Z.eqb_spec step 0).
  - intros Hstep r c Hr Hc. unfold moveToText.
    destruct (Z.eqb_spec step 0); [done|].
    by destruct (row_col_of_index r c) as [-> ->]; [lia..|].
  - intros i Hi. exists (i / 3), (Z.rem i 3).
    rewrite Z.rem_mod_nonneg by lia. split_and!; Z.div_mod_to_equations; lia.
Qed.

(** X8 for move 3 on the square in the middle of the bottom row. *)
Lemma moveToText_names_the_grid_cell_witness :
  moveToText 3 (Some 7) = "Go to move #3 (r3, c2)"%string.
Proof.
  refine (proj1 (proj2 (proj2 (moveToText_names_the_grid_cell 3))) _ 2 1 _ _); lia.
Defined.

(** X9. In a reachable state the label of step 0 of the history list is
    "Go to game start", and the label of every later step [k] carries
    the coordinates of the one cell that snapshot [k] fills: the label
    without coordinates is never shown. *)
Theorem history_labels_name_the_move (st : state) (k : nat) (s : snapshot) :
  reachable st →
  history st !! k = Some s →
  let label := moveToText (Z.of_nat k) (lastMove s) in
  children_of <$> buttons (MoveHistory (history st) (currentStep st) (jumpTo st)) !! k
  = Some [Text label]
  ∧ (k = 0%nat → label = "Go to game start"%string)
  ∧ (k ≠ 0%nat →
       ∃ r c s0,
         0 ≤ r ≤ 2 ∧ 0 ≤ c ≤ 2
         ∧ lastMove s = Some (3 * r + c)
         ∧ history st !! (k - 1)%nat = Some s0
         ∧ aget (squares s0) (3 * r + c) = JNull
         ∧ aget (squares s) (3 * r + c) ≠ JNull
         ∧ label = "Go to move #" +:+ number_toString (Z.of_nat k)
                   +:+ " (r" +:+ number_toString (r + 1)
                   +:+ ", c" +:+ number_toString (c + 1) +:+ ")").
Proof.
  intros Hreach Hs label. subst label. split_and!.
  - rewrite buttons_MoveHistory, list_lookup_imap, Hs. done.
  - by intros ->.
  - intros Hk. destruct k as [|p]; [done|].
    pose proof (reachable_chain_inv _ Hreach) as ((_ & Hboards) & _ & Hchain).
    destruct (lookup_lt_is_Some_2 (history st) p) as [s0 Hs0].
    { apply lookup_lt_Some in Hs. lia. }
    pose proof (Forall_lookup_1 _ _ _ _ Hboards Hs0) as Hb0.
    pose proof (Forall_lookup_1 _ _ _ _ Hboards Hs) as Hb.
    destruct (one_move_cells p s0 s Hb0 Hb (Hchain p s0 s Hs0 Hs))
      as (i & Hi & Hlast & Hnull & Hmark & _).
    exists (i / 3), (Z.rem i 3), s0.
    assert (Hrc : i = 3 * (i / 3) + Z.rem i 3).
    { rewrite Z.rem_mod_nonneg by lia. Z.div_mod_to_equations. lia. }
    assert (Hr : 0 ≤ i / 3 ≤ 2) by (Z.div_mod_to_equations; lia).
    assert (Hc : 0 ≤ Z.rem i 3 ≤ 2).
    { rewrite Z.rem_mod_nonneg by lia. Z.div_mod_to_equations. lia. }
    rewrite <- Hrc. split_and!; try done; try lia.
    + by replace (S p - 1)%nat with p by lia.
    + by rewrite Hmark.
    + rewrite Hlast. unfold moveToText.
      destruct (Z.eqb_spec (Z.of_nat (S p)) 0); [lia|]. done.
Qed.

(** X9 for step 2 of the rewound sample state, O on the middle square. *)
Lemma history_labels_name_the_move_witness :
  moveToText 2 (Some 4) = "Go to move #2 (r2, c2)"%string.
Proof.
  destruct (history_labels_name_the_move (jumpTo state_rewound 2) 2
              {| squares := board_of [JMark X; JNull; JNull; JNull; JMark O;
                                      JNull; JNull; JNull; JNull];
                 lastMove := Some 4 |}) as (_ & _ & Hlabel).
  - apply (play_reachable [0; 4]); [by_decision|reflexivity].
  - reflexivity.
  - destruct (Hlabel ltac:(lia)) as (r & c & s0 & Hr & Hc & Hlast & _ & _ & _ & Heq).
    injection Hlast as Hrc.
    assert (r = 1 ∧ c = 1) as [-> ->] by lia. exact Heq.
Defined.

(** ** The history list *)

Lemma history_button_current {A} cs (f : Z → A) k s :
  attr_of "aria-current" (history_button cs f k s) = Some (AStr "step")
  ↔ cs = Z.of_nat k.
Proof.
  unfold history_button. destruct (Z.eqb_spec cs (Z.of_nat k)); simpl; split; done.
Qed.

Lemma history_button_active {A} cs (f : Z → A) k s :
  attr_of "className" (history_button cs f k s)
  = Some (AStr (if decide (cs = Z.of_nat k)
                then "btn btn--ghost btn--active" else "btn btn--ghost ")).
Proof.
  unfold history_button. case_decide as Hk.
  - rewrite <- Hk, Z.eqb_refl. done.
  - destruct (Z.eqb_spec cs (Z.of_nat k)); done.
Qed.

Lemma count_current_buttons {A} cs (f : Z → A) (h : list snapshot) :
  length (filter (λ b, attr_of "aria-current" b = Some (AStr "step"))
            (imap (history_button cs f) h))
  = if decide (0 ≤ cs < Z.of_nat (length h)) then 1%nat else 0%nat.
Proof.
  induction h as [|s h IH] using rev_ind.
  - simpl. case_decide; [lia|done].
  - rewrite imap_app, filter_app, length_app, IH. cbn [imap].
    rewrite filter_cons, Nat.add_0_r, length_app. cbn [length].
    destruct (decide (attr_of "aria-current" (history_button cs f (length h) s)
                      = Some (AStr "step"))) as [Hc|Hc];
      rewrite history_button_current in Hc; repeat case_decide; simpl; lia.
Qed.

(** X10. [MoveHistory] shows one button for each snapshot, in order;
    button [k] jumps to step [k], so the list only ever asks for steps
    inside the history.  Button [k] is marked as the current one, by
    [aria-current] and by the class [btn--active], exactly when [k] is
    the current step: one button is marked when the cursor is inside
    the history and none otherwise. *)
Theorem MoveHistory_buttons {A} (history : list snapshot) (currentStep : Z)
    (onJumpTo : Z → A) :
  let bs := buttons (MoveHistory history currentStep onJumpTo) in
  length bs = length history
  ∧ click_of <$> bs = imap (λ k _, Some (onJumpTo (Z.of_nat k))) history
  ∧ (∀ (k : nat) b, bs !! k = Some b →
       0 ≤ Z.of_nat k < Z.of_nat (length history)
       ∧ (attr_of "aria-current" b = Some (AStr "step") ↔ currentStep = Z.of_nat k)
       ∧ (attr_of "className" b = Some (AStr "btn btn--ghost btn--active")
          ↔ currentStep = Z.of_nat k))
  ∧ length (filter (λ b, attr_of "aria-current" b = Some (AStr "step")) bs)
    = if decide (0 ≤ currentStep < Z.of_nat (length history)) then 1%nat else 0%nat.
Proof.
  intros bs. subst bs. rewrite buttons_MoveHistory. split_and!.
  - apply length_imap.
  - apply list_eq. intros k.
    rewrite list_lookup_fmap, !list_lookup_imap. by destruct (history !! k).
  - intros k b Hb. apply list_lookup_imap_Some in Hb as (s & Hs & ->).
    split; [|split].
    + apply lookup_lt_Some in Hs. lia.
    + apply history_button_current.
    + rewrite history_button_active. case_decide; split; done.
  - apply count_current_buttons.
Qed.

(** X10 for the rewound sample state: three buttons, the second one
    current. *)
Lemma MoveHistory_buttons_witness :
  ∃ b, buttons (MoveHistory (history state_rewound) 1 (jumpTo state_rewound)) !! 1%nat
       = Some b
       ∧ attr_of "aria-current" b = Some (AStr "step").
Proof.
  eexists. split; [reflexivity|].
  refine (proj2 (proj1 (proj2 (proj1 (proj2 (proj2
            (MoveHistory_buttons (history state_rewound) 1 (jumpTo state_rewound))))
            1%nat _ eq_refl))) eq_refl).
Defined.

(** ** The page and the engine *)

Lemma elem_of_cell_indices i : i ∈ cell_indices ↔ 0 ≤ i ≤ 8.
Proof.
  unfold cell_indices. rewrite !elem_of_cons, elem_of_nil. lia.
Qed.

Lemma cell_indices_lookup i : 0 ≤ i ≤ 8 → cell_indices !! Z.to_nat i = Some i.
Proof.
  intros Hi.
  assert (i = 0 ∨ i = 1 ∨ i = 2 ∨ i = 3 ∨ i = 4 ∨ i = 5 ∨ i = 6 ∨ i = 7 ∨ i = 8)
    as Hcases by lia.
  by repeat destruct Hcases as [->|Hcases]; [..|subst i].
Qed.

Lemma ui_step_step st st' :
  is_Some (current st) → ui_step st st' ↔ step st st'.
Proof.
  intros [cur Hcur]. split.
  - intros (view & b & Happ & Hb & Hclick).
    rewrite (buttons_App st cur view Hcur Happ) in Hb.
    apply elem_of_app in Hb as [Hb|Hb]; [|apply elem_of_app in Hb as [Hb|Hb]].
    + apply list_elem_of_fmap in Hb as (i & -> & Hi%elem_of_cell_indices).
      simpl in Hclick. injection Hclick as Hclick. by apply (step_place _ i).
    + apply list_elem_of_singleton in Hb as ->.
      simpl in Hclick. injection Hclick as <-. constructor.
    + apply elem_of_lookup_imap in Hb as (k & s & -> & Hs).
      simpl in Hclick. injection Hclick as <-. constructor.
      apply lookup_lt_Some in Hs. lia.
  - destruct (App st) as [view|] eqn:Happ;
      [|apply App_None in Happ; congruence].
    intros [i ? Hi Hclick|k Hk|].
    + exists view, (Square (aget (squares cur) i) (handleSquareClick st i) i
                      (isWinning (winningLine_at (squares cur)) i)).
      split; [done|split; [|by rewrite Hclick]].
      rewrite (buttons_App st cur view Hcur Happ).
      apply elem_of_app. left. apply list_elem_of_fmap.
      exists i. split; [done|]. by apply elem_of_cell_indices.
    + destruct (lookup_lt_is_Some_2 (history st) (Z.to_nat k)) as [s Hs]; [lia|].
      exists view, (history_button (currentStep st) (λ step, Some (jumpTo st step))
                      (Z.to_nat k) s).
      split; [done|split].
      * rewrite (buttons_App st cur view Hcur Happ).
        apply elem_of_app. right. apply elem_of_app. right.
        by apply elem_of_lookup_imap_2.
      * simpl. by rewrite Z2Nat.id by lia.
    + exists view, (restart_button (Some (restart st))).
      split; [done|split; [|done]].
      rewrite (buttons_App st cur view Hcur Happ).
      apply elem_of_app. right. apply elem_of_app. left. by apply list_elem_of_singleton.
Qed.

Lemma reachable_current st : reachable st → is_Some (current st).
Proof.
  intros ((Hr & _) & _)%reachable_chain_inv. by apply current_is_Some.
Qed.

Lemma ui_reachable_reachable st : ui_reachable st ↔ reachable st.
Proof.
  split.
  - induction 1 as [|st st' _ IH Hstep]; [constructor|].
    apply (reachable_step st); [done|].
    apply ui_step_step; [|done]. by apply reachable_current.
  - induction 1 as [|st st' Hreach IH Hstep]; [constructor|].
    apply (ui_reachable_step st); [done|].
    apply ui_step_step; [|done]. by apply reachable_current.
Qed.

(** X11. The page asks the engine for valid operations only, and for
    all of them.  Starting from the initial state and clicking buttons
    that [App] shows, the render never fails; a click on a button sets
    exactly a state that a click on a cell 0 to 8, a jump to a step
    inside the history, or a restart gives; and each of these
    operations is on some button.  So the states that a user can bring
    about are the reachable ones. *)
Theorem page_offers_exactly_the_valid_operations :
  (∀ st, ui_reachable st ↔ reachable st)
  ∧ (∀ st, ui_reachable st → is_Some (App st) ∧ wf_state st)
  ∧ (∀ st st', ui_reachable st → ui_step st st' ↔ step st st')
  ∧ (∀ st cur view, current st = Some cur → App st = Some view →
       click_of <$> buttons view
       = ((λ i, Some (handleSquareClick st i)) <$> cell_indices)
         ++ [Some (Some (restart st))]
         ++ imap (λ k _, Some (Some (jumpTo st (Z.of_nat k)))) (history st)).
Proof.
  split_and!.
  - apply ui_reachable_reachable.
  - intros st Hreach%ui_reachable_reachable. split.
    + destruct (App st) eqn:Happ; [done|].
      apply App_None in Happ. destruct (reachable_current _ Hreach). congruence.
    + by apply reachable_chain_inv.
  - intros st st' Hreach%ui_reachable_reachable.
    apply ui_step_step. by apply reachable_current.
  - intros st cur view Hcur Happ.
    rewrite (buttons_App st cur view Hcur Happ), !fmap_app.
    apply (f_equal2 app); [|apply (f_equal2 app)].
    + by rewrite <- list_fmap_compose.
    + done.
    + apply list_eq. intros k.
      rewrite list_lookup_fmap, !list_lookup_imap. by destruct (history st !! k).
Qed.

(** X11 from the initial state: the click on the middle square. *)
Lemma page_offers_exactly_the_valid_operations_witness :
  ∃ st', ui_step initial_state st' ∧ handleSquareClick initial_state 4 = Some st'.
Proof.
  eexists. split; [|reflexivity].
  apply (proj1 (proj2 (proj2 page_offers_exactly_the_valid_operations))
           initial_state _ ui_reachable_init).
  apply (step_place _ 4); [lia|reflexivity].
Defined.

(** ** What the squares show *)

Lemma className_Square {A} v (f : A) i h :
  attr_of "className" (Square v f i h)
  = Some (AStr (if h then "square square--highlight" else "square ")).
Proof. by destruct h. Qed.

Lemma pressed_Square {A} v (f : A) i h :
  attr_of "aria-pressed" (Square v f i h) = Some (ABool (truthy v)).
Proof. done. Qed.

Lemma Board_button_lookup {A} squares (f : Z → A) winningLine i :
  0 ≤ i ≤ 8 →
  buttons (Board squares f winningLine) !! Z.to_nat i
  = Some (Square (aget squares i) (f i) i (isWinning winningLine i)).
Proof.
  intros Hi. by rewrite buttons_Board, list_lookup_fmap, cell_indices_lookup.
Qed.

Lemma count_highlighted {A} squares (f : Z → A) a b c :
  (a, b, c) ∈ lines →
  length (filter (λ e, attr_of "className" e = Some (AStr "square square--highlight"))
            (buttons (Board squares f (Some [a; b; c]))))
  = 3%nat.
Proof.
  intros Hl. rewrite buttons_Board. unfold lines in Hl.
  rewrite !elem_of_cons, elem_of_nil in Hl.
  repeat destruct Hl as [Hl|Hl]; try done; injection Hl as -> -> ->; reflexivity.
Qed.

(** X12. The board highlights a won game and nothing else.  Without a
    winner no square has the highlight class.  With a winner exactly
    three squares have it, those of the winning line that
    [calculateWinner] returns, and each of them is pressed and shows
    the winner's mark. *)
Theorem Board_highlights_the_winning_line {A} (squares : jsarray) (f : Z → A) :
  let bs := buttons (Board squares f (winningLine_at squares)) in
  let highlighted (e : element A) :=
    attr_of "className" e = Some (AStr "square square--highlight") in
  (calculateWinner squares = None → ∀ e, e ∈ bs → ¬ highlighted e)
  ∧ (∀ w, calculateWinner squares = Some w →
       length (filter highlighted bs) = 3%nat
       ∧ ∀ i e, 0 ≤ i ≤ 8 → bs !! Z.to_nat i = Some e →
           (highlighted e ↔ i ∈ line_of w)
           ∧ (i ∈ line_of w →
                attr_of "aria-pressed" e = Some (ABool true)
                ∧ children_of e = [Text (toString (winner_of w))])).
Proof.
  intros bs highlighted. subst bs highlighted. unfold winningLine_at. split.
  - intros ->. simpl. intros e He. rewrite buttons_Board in He.
    apply list_elem_of_fmap in He as (i & -> & _).
    by rewrite className_Square.
  - intros w Hw. rewrite Hw. simpl.
    destruct (calculateWinner_line _ _ Hw) as (a & b & c & m & Hl & -> & Ha & Hb & Hc).
    simpl. split; [by apply count_highlighted|].
    intros i e Hi He. rewrite Board_button_lookup in He by done.
    injection He as <-. rewrite className_Square, pressed_Square. split.
    + unfold isWinning. case_bool_decide; split; done.
    + intros Hin. rewrite !elem_of_cons, elem_of_nil in Hin.
      assert (aget squares i = JMark m) as ->.
      { destruct Hin as [->|[->|[->|[]]]]; done. }
      done.
Qed.

(** X12 on the board with X on the top row: square 1 is highlighted. *)
Lemma Board_highlights_the_winning_line_witness :
  ∃ e, buttons (Board board_x_top_row (λ i, i) (winningLine_at board_x_top_row)) !! 1%nat
       = Some e
       ∧ attr_of "className" e = Some (AStr "square square--highlight").
Proof.
  eexists. split; [reflexivity|].
  destruct (Board_highlights_the_winning_line board_x_top_row (λ i, i)) as [_ Hwon].
  destruct (Hwon {| winner_of := JMark X; line_of := [0; 1; 2] |} eq_refl) as [_ Hsq].
  destruct (Hsq 1 _ ltac:(lia) eq_refl) as [Hhl _].
  apply Hhl. by_decision.
Defined.

Lemma fmap_aget_cell_indices board :
  is_board board → aget board <$> cell_indices = items board.
Proof.
  intros (Hlen & _ & _). unfold aget.
  destruct (items board) as [|v0 [|v1 [|v2 [|v3 [|v4 [|v5 [|v6 [|v7 [|v8 [|v9 l]]]]]]]]]];
    done.
Qed.

Lemma length_filter_fmap_iff {B C} (P : C → Prop) `{∀ x, Decision (P x)}
    (Q : B → Prop) `{∀ x, Decision (Q x)} (g : B → C) (l : list B) :
  (∀ x, x ∈ l → P (g x) ↔ Q x) →
  length (filter P (g <$> l)) = length (filter Q l).
Proof.
  induction l as [|x l IH]; [done|]. intros Hiff.
  rewrite fmap_cons, !filter_cons.
  pose proof (Hiff x ltac:(left)) as Hx.
  specialize (IH (λ y Hy, Hiff y ltac:(by right))).
  destruct (decide (P (g x))), (decide (Q x)); simpl; rewrite ?IH; tauto || done.
Qed.

(** X13. In a reachable state at step [k] the page shows exactly [k]
    pressed squares among its nine, and in any state that renders a
    click on a pressed square sets the state it already is. *)
Theorem pressed_squares_are_the_moves_made (st : state) (cur : snapshot)
    (view : element (option state)) :
  current st = Some cur →
  App st = Some view →
  let pressed (e : element (option state)) :=
    attr_of "aria-pressed" e = Some (ABool true) in
  (∀ e, e ∈ take 9 (buttons view) → pressed e → click_of e = Some (Some st))
  ∧ (reachable st →
       Z.of_nat (length (filter pressed (take 9 (buttons view)))) = currentStep st).
Proof.
  intros Hcur Happ pressed. subst pressed.
  rewrite (buttons_App st cur view Hcur Happ).
  rewrite take_app_length' by done. split.
  - intros e (i & -> & Hi)%list_elem_of_fmap. rewrite pressed_Square.
    intros [= Ht]. simpl. f_equal.
    apply (handleSquareClick_ignored st cur i Hcur). rewrite Ht. apply orb_true_r.
  - intros Hreach. pose proof (reachable_chain_inv _ Hreach) as Hinv.
    pose proof Hinv as (Hwf & _ & _).
    pose proof (wf_current_board _ _ Hwf Hcur) as Hb.
    apply current_Some in Hcur as Hk. destruct Hk as [H0 Hk].
    destruct (chain_inv_counts st _ cur Hinv Hk) as (Hcount & _ & _).
    rewrite (length_filter_fmap_iff _ (λ i, aget (squares cur) i ≠ JNull)).
    + rewrite <- (length_filter_fmap_iff (λ v, v ≠ JNull) _ (aget (squares cur)))
        by done.
      rewrite fmap_aget_cell_indices by done.
      unfold count_cells in Hcount. lia.
    + intros i Hi%elem_of_cell_indices. rewrite pressed_Square.
      rewrite <- (cell_truthy _ (aget_board_cell _ _ Hb Hi)).
      split; [by intros [= ->]|by intros ->].
Qed.

(** X13 at the rewound sample state: one pressed square at step 1. *)
Lemma pressed_squares_are_the_moves_made_witness :
  ∃ view, App state_rewound = Some view
          ∧ Z.of_nat (length (filter (λ e, attr_of "aria-pressed" e = Some (ABool true))
                                (take 9 (buttons view)))) = 1.
Proof.
  eexists. split; [reflexivity|].
  refine (proj2 (pressed_squares_are_the_moves_made state_rewound _ _ eq_refl eq_refl) _).
  apply (reachable_step (jumpTo state_rewound 2)).
  - apply (play_reachable [0; 4]); [by_decision|reflexivity].
  - apply (step_jump (jumpTo state_rewound 2) 1). simpl. lia.
Defined.

(** ** The status line and the fixed parts of the page *)

Lemma elements_with_tag_Elem {A} tag t attrs onClick (children : list (element A)) :
  elements_with_tag tag (Elem t attrs onClick children)
  = (if decide (tag = t) then [Elem t attrs onClick children] else [])
    ++ flat_map (elements_with_tag tag) children.
Proof.
  unfold elements_with_tag. cbn [descendants]. rewrite filter_cons, filter_flat_map.
  cbn [tag_of]. destruct (decide (Some t = Some tag)) as [[= ->]|Hne].
  - by rewrite decide_True.
  - rewrite decide_False; [done|]. by intros ->.
Qed.

Lemma elements_with_tag_Text {A} tag s : elements_with_tag tag (@Text A s) = [].
Proof. done. Qed.

Lemma elements_with_tag_Square {A} tag v (f : A) i h :
  tag ≠ "button"%string → elements_with_tag tag (Square v f i h) = [].
Proof.
  intros Htag. unfold Square. rewrite elements_with_tag_Elem, decide_False by done.
  by destruct v.
Qed.

Lemma elements_with_tag_Board {A} tag squares (f : Z → A) winningLine :
  tag ≠ "button"%string → tag ≠ "div"%string →
  elements_with_tag tag (Board squares f winningLine) = [].
Proof.
  intros Hb Hd.
  assert (Hsq : ∀ i, elements_with_tag tag
                       (Square (aget squares i) (f i) i (isWinning winningLine i)) = []).
  { intros i. by apply elements_with_tag_Square. }
  unfold Board. rewrite elements_with_tag_Elem, decide_False by done.
  cbn [flat_map fmap list_fmap].
  rewrite !(elements_with_tag_Elem tag "div"), !decide_False by done.
  cbn [flat_map fmap list_fmap].
  rewrite !(elements_with_tag_Elem tag "div"), !decide_False by done.
  cbn [flat_map]. by rewrite !Hsq.
Qed.

Lemma elements_with_tag_history_items {A} tag cs (f : Z → A) history :
  tag ≠ "button"%string → tag ≠ "li"%string →
  flat_map (elements_with_tag tag) (imap (history_item cs f) history) = [].
Proof.
  intros Hb Hl. induction history as [|s history IH] using rev_ind; [done|].
  rewrite imap_app, flat_map_app, IH. cbn [imap flat_map].
  unfold history_item, history_button.
  rewrite (elements_with_tag_Elem tag "li"), decide_False by done. cbn [flat_map].
  rewrite (elements_with_tag_Elem tag "button"), decide_False by done. done.
Qed.

Lemma elements_with_tag_MoveHistory {A} tag history cs (f : Z → A) :
  tag ≠ "button"%string → tag ≠ "li"%string → tag ≠ "div"%string →
  tag ≠ "h3"%string → tag ≠ "ol"%string →
  elements_with_tag tag (MoveHistory history cs f) = [].
Proof.
  intros Hb Hl Hd Hh Ho. unfold MoveHistory.
  rewrite elements_with_tag_Elem, decide_False by done. cbn [flat_map].
  rewrite (elements_with_tag_Elem tag "h3"), (elements_with_tag_Elem tag "ol"),
    !decide_False by done.
  cbn [flat_map]. by rewrite elements_with_tag_Text, elements_with_tag_history_items.
Qed.

(** The heading and the status line of the page. *)
Lemma elements_with_tag_App tag st cur view :
  current st = Some cur → App st = Some view →
  tag = "h1"%string ∨ tag = "span"%string →
  elements_with_tag tag view
  = if decide (tag = "h1"%string)
    then [ Elem "h1" [ ("className", AStr "title") ] None [ Text "Tic Tac Toe" ] ]
    else [ Elem "span" [ ("className", AStr (status_className (squares cur))) ] None
             [ Text (statusText_at (currentStep st) (squares cur)) ] ].
Proof.
  intros Hcur. unfold App. rewrite Hcur. simpl. intros [= <-] Htag.
  assert (Hboard : elements_with_tag tag
                     (Board (squares cur) (handleSquareClick st)
                        (winningLine_at (squares cur))) = []).
  { apply elements_with_tag_Board; by destruct Htag as [-> | ->]. }
  assert (Hhist : elements_with_tag tag
                    (MoveHistory (history st) (currentStep st)
                       (λ step, Some (jumpTo st step))) = []).
  { apply elements_with_tag_MoveHistory; by destruct Htag as [-> | ->]. }
  rewrite elements_with_tag_Elem. cbn [flat_map].
  rewrite elements_with_tag_Elem. cbn [flat_map].
  rewrite (elements_with_tag_Elem tag "header"), (elements_with_tag_Elem tag "div"),
    (elements_with_tag_Elem tag "main"), (elements_with_tag_Elem tag "section"),
    (elements_with_tag_Elem tag "footer").
  cbn [flat_map]. rewrite Hboard, Hhist.
  rewrite (elements_with_tag_Elem tag "h1"), (elements_with_tag_Elem tag "span").
  unfold restart_button. rewrite (elements_with_tag_Elem tag "button").
  cbn [flat_map]. rewrite !elements_with_tag_Text.
  destruct Htag as [-> | ->]; reflexivity.
Qed.

Lemma status_cases st cur :
  wf_state st → current st = Some cur →
  ∃ s, getStatus_spec st cur s
       ∧ statusText_at (currentStep st) (squares cur) = status_text s
       ∧ status_className (squares cur) = status_class s.
Proof.
  intros Hwf Hcur. pose proof (wf_current_board _ _ Hwf Hcur) as Hb.
  unfold statusText_at, status_className, isDraw_at, winner_at.
  destruct (calculateWinner (squares cur)) as [[v l]|] eqn:Hw.
  - pose proof (calculateWinner_truthy _ _ Hw) as Ht. simpl in Ht |- *.
    rewrite Ht. apply truthy_mark in Ht as [m ->].
    exists (Winner m). split; [by econstructor|done].
  - simpl. destruct (every _ (squares cur)) eqn:Hfull.
    + exists Draw. split; [|done].
      constructor; [done|]. by apply every_not_null_board_full.
    + exists (NextPlayer (turn_owner st)). split.
      * constructor; [done|]. intros Hf%every_not_null_board_full; [|done].
        congruence.
      * unfold turn_owner. by rewrite nextMark_parity.
Qed.

(** X14. The page has one status line, and its class goes with its
    text: [status--win] with the winner's name, [status--draw] with the
    draw message, [status--ongoing] with the player to move, for the
    status that the current board has. *)
Theorem status_line_shows_the_status (st : state) (cur : snapshot)
    (view : element (option state)) :
  wf_state st →
  current st = Some cur →
  App st = Some view →
  ∃ s, getStatus_spec st cur s
       ∧ elements_with_tag "span" view
         = [ Elem "span" [ ("className", AStr (status_class s)) ] None
               [ Text (status_text s) ] ].
Proof.
  intros Hwf Hcur Happ.
  destruct (status_cases st cur Hwf Hcur) as (s & Hs & Htext & Hclass).
  exists s. split; [done|].
  rewrite (elements_with_tag_App "span" st cur view Hcur Happ) by auto.
  rewrite decide_False by done. by rewrite Htext, Hclass.
Qed.

(** X14 at the won sample state. *)
Lemma status_line_shows_the_status_witness :
  ∃ view, App state_won = Some view
          ∧ elements_with_tag "span" view
            = [ Elem "span" [ ("className", AStr "status status--win") ] None
                  [ Text "Winner: X" ] ].
Proof.
  eexists. split; [reflexivity|].
  destruct (status_line_shows_the_status state_won
              {| squares := board_x_top_row; lastMove := Some 2 |} _
              ltac:(by_decision) eq_refl eq_refl) as (s & Hs & Hspan).
  rewrite Hspan. inversion Hs as [m l Hw| |]; [|done..].
  injection Hw as <- _. reflexivity.
Defined.

Lemma filter_none {B} (P : B → Prop) `{∀ x, Decision (P x)} (l : list B) :
  (∀ x, x ∈ l → ¬ P x) → filter P l = [].
Proof.
  induction l as [|x l IH]; [done|]. intros Hnone.
  rewrite filter_cons_False by (apply Hnone; left).
  apply IH. intros y Hy. apply Hnone. by right.
Qed.

Lemma filter_all {B} (P : B → Prop) `{∀ x, Decision (P x)} (l : list B) :
  (∀ x, x ∈ l → P x) → filter P l = l.
Proof.
  induction l as [|x l IH]; [done|]. intros Hall.
  rewrite filter_cons_True by (apply Hall; left).
  f_equal. apply IH. intros y Hy. apply Hall. by right.
Qed.

Lemma prefix_append (p x : string) : String.prefix p (p +:+ x) = true.
Proof.
  induction p as [|a p IH]; simpl; [by destruct x|].
  by destruct (Ascii.ascii_dec a a).
Qed.

Lemma label_Square {A} v (f : A) i h :
  attr_of "aria-label" (Square v f i h) = Some (AStr (cell_label i v)).
Proof. done. Qed.

Lemma label_history_button {A} cs (f : Z → A) k s :
  attr_of "aria-label" (history_button cs f k s) = None.
Proof. unfold history_button. by destruct (cs =? Z.of_nat k). Qed.

(** X15. Every page that renders has the parts its tests look for and
    no second copy of them: one [h1] heading with the text
    "Tic Tac Toe"; one button labelled "Restart game"; and nine buttons
    whose label starts with "Cell ", the squares, labelled "Cell 1" to
    "Cell 9" in the order of the grid, each followed by its mark when
    it has one.  The other buttons, one for each snapshot of the
    history, have no label. *)
Theorem page_has_title_restart_and_nine_cells (st : state) (cur : snapshot)
    (view : element (option state)) :
  current st = Some cur →
  App st = Some view →
  elements_with_tag "h1" view
  = [ Elem "h1" [ ("className", AStr "title") ] None [ Text "Tic Tac Toe" ] ]
  ∧ filter (λ e, attr_of "aria-label" e = Some (AStr "Restart game")) (buttons view)
    = [ restart_button (Some (restart st)) ]
  ∧ filter (λ e, label_starts_with "Cell " e = true) (buttons view)
    = take 9 (buttons view)
  ∧ attr_of "aria-label" <$> take 9 (buttons view)
    = (λ i, Some (AStr (cell_label i (aget (squares cur) i)))) <$> cell_indices
  ∧ length (buttons view) = (10 + length (history st))%nat
  ∧ attr_of "aria-label" <$> drop 10 (buttons view)
    = replicate (length (history st)) None.
Proof.
  intros Hcur Happ.
  rewrite (elements_with_tag_App "h1" st cur view Hcur Happ) by auto.
  rewrite (buttons_App st cur view Hcur Happ).
  set (sqs := (λ i, Square (aget (squares cur) i) (handleSquareClick st i) i
                      (isWinning (winningLine_at (squares cur)) i)) <$> cell_indices).
  set (hbs := imap (history_button (currentStep st) (λ step, Some (jumpTo st step)))
                (history st)).
  assert (Hlen : length sqs = 9%nat) by done.
  assert (Hsq : ∀ e, e ∈ sqs → ∃ i, e = Square (aget (squares cur) i)
                                         (handleSquareClick st i) i
                                         (isWinning (winningLine_at (squares cur)) i)).
  { intros e (i & -> & _)%list_elem_of_fmap. eauto. }
  assert (Hhb : ∀ e, e ∈ hbs → attr_of "aria-label" e = None).
  { intros e (k & s & -> & _)%elem_of_lookup_imap. apply label_history_button. }
  split_and!.
  - done.
  - rewrite !filter_app, (filter_none _ sqs), (filter_none _ hbs).
    + done.
    + intros e He. by rewrite (Hhb e He).
    + intros e (i & ->)%Hsq. rewrite label_Square. unfold cell_label. by intros [=].
  - rewrite take_app_length' by done.
    rewrite !filter_app, (filter_all _ sqs), (filter_none _ hbs).
    + by rewrite app_nil_r.
    + intros e He. unfold label_starts_with. by rewrite (Hhb e He).
    + intros e (i & ->)%Hsq. unfold label_starts_with.
      rewrite label_Square. apply prefix_append.
  - rewrite take_app_length' by done. subst sqs.
    by rewrite <- list_fmap_compose.
  - rewrite !length_app, Hlen. subst hbs. rewrite length_imap. simpl. lia.
  - rewrite app_assoc.
    rewrite drop_app_length' by (rewrite length_app, Hlen; done).
    apply list_eq. intros k. subst hbs.
    rewrite list_lookup_fmap, list_lookup_imap.
    destruct (history st !! k) as [s|] eqn:Hs.
    + trans (Some (@None attr)).
      * by rewrite <- (label_history_button (currentStep st)
                         (λ step, Some (jumpTo st step)) k s).
      * symmetry. apply lookup_replicate_2. by eapply lookup_lt_Some.
    + symmetry. apply lookup_replicate_None. apply lookup_ge_None in Hs. lia.
Qed.

(** X15 at the rewound sample state: the second square is labelled
    "Cell 2" and the first "Cell 1, X". *)
Lemma page_has_title_restart_and_nine_cells_witness :
  ∃ view, App state_rewound = Some view
          ∧ take 2 (attr_of "aria-label" <$> take 9 (buttons view))
            = [Some (AStr "Cell 1, X"); Some (AStr "Cell 2")].
Proof.
  eexists. split; [reflexivity|].
  destruct (page_has_title_restart_and_nine_cells state_rewound _ _ eq_refl eq_refl)
    as (_ & _ & _ & Hlabels & _).
  rewrite Hlabels. reflexivity.
Defined.


(** ** A game can go on until it is over *)

Lemma board_not_full_empty_cell board :
  is_board board → ¬ board_full board → ∃ i, 0 ≤ i ≤ 8 ∧ aget board i = JNull.
Proof.
  intros Hb Hnot.
  assert (Hex : ¬ Forall (λ v, v ≠ JNull) (items board)).
  { intros Hall. apply Hnot. apply every_not_null_board_full; [done|].
    by apply every_not_null_Forall. }
  apply not_Forall_Exists in Hex; [|apply _].
  apply Exists_exists in Hex as (v & Hv & Hnull). simpl in Hnull.
  apply list_elem_of_lookup in Hv as [n Hn].
  destruct Hb as (Hlen & _ & _). pose proof (lookup_lt_Some _ _ _ Hn) as Hlt.
  exists (Z.of_nat n). split; [lia|].
  unfold aget. rewrite is_array_index_cell, Nat2Z.id, Hn by lia. simpl.
  by destruct (decide (v = JNull)).
Qed.

(** X16. The status "Next Player" is shown exactly when a click on some
    cell changes the state: as long as there is no winner and the board
    is not full some cell accepts a mark, and once the game is won or
    drawn no click on a cell does anything. *)
Theorem next_player_iff_some_click_is_accepted (st : state) (cur : snapshot) :
  wf_state st →
  current st = Some cur →
  (∃ i, 0 ≤ i ≤ 8 ∧ handleSquareClick st i ≠ Some st)
  ↔ getStatus_spec st cur (NextPlayer (turn_owner st))
    ∧ statusText st
      = Some ("Next Player: " +:+ toString (JMark (nextMark (currentStep st)))).
Proof.
  intros Hwf Hcur. pose proof (wf_current_board _ _ Hwf Hcur) as Hb.
  destruct (status_cases st cur Hwf Hcur) as (s & Hs & Htext & _).
  assert (Hnext : getStatus_spec st cur (NextPlayer (turn_owner st)) →
                  statusText st
                  = Some ("Next Player: "
                          +:+ toString (JMark (nextMark (currentStep st))))).
  { intros Hs'. unfold statusText. rewrite Hcur. simpl. rewrite Htext.
    rewrite (getStatus_spec_deterministic _ _ _ _ Hs Hs'). simpl.
    unfold turn_owner. by rewrite nextMark_parity. }
  split.
  - intros (i & Hi & Hchange).
    destruct (truthy (winner_at (squares cur)) || truthy (aget (squares cur) i)) eqn:Hg.
    { by rewrite (handleSquareClick_ignored _ _ _ Hcur Hg) in Hchange. }
    apply orb_false_iff in Hg as [Hw%calculateWinner_None_falsy Hfalsy].
    assert (Hstatus : getStatus_spec st cur (NextPlayer (turn_owner st))).
    { constructor; [done|]. intros Hfull. specialize (Hfull i Hi).
      apply (cell_truthy _ (aget_board_cell _ _ Hb Hi)) in Hfull. congruence. }
    split; [done|by apply Hnext].
  - intros [Hstatus _]. inversion Hstatus as [| |Hw Hnot].
    destruct (board_not_full_empty_cell _ Hb Hnot) as (i & Hi & Hnull).
    exists i. split; [done|].
    rewrite (handleSquareClick_accepted st cur i Hcur (legal_guard_false _ _ Hw Hnull)).
    intros Heq. apply (f_equal (fmap currentStep)) in Heq. simpl in Heq.
    injection Heq as Heq. lia.
Qed.

(** X16 at the rewound sample state: cell 8 accepts a mark. *)
Lemma next_player_iff_some_click_is_accepted_witness :
  statusText state_rewound = Some "Next Player: O"%string.
Proof.
  refine (proj2 (proj1 (next_player_iff_some_click_is_accepted state_rewound
            {| squares := board_of [JMark X; JNull; JNull; JNull; JNull;
                                    JNull; JNull; JNull; JNull];
               lastMove := Some 0 |} _ eq_refl) _)).
  - by_decision.
  - exists 8. split; [lia|]. vm_compute. discriminate.
Defined.

(** ** A history is the replay of its moves *)

Lemma snapshot_of_one_move n s s' i :
  is_board (squares s) → is_board (squares s') → one_move n s s' →
  lastMove s' = Some i →
  0 ≤ i ≤ 8
  ∧ aget (squares s) i = JNull
  ∧ s' = {| squares := aset (slice (squares s)) i (JMark (nextMark (Z.of_nat n)));
            lastMove := Some i |}.
Proof.
  intros Hb Hb' (j & Hj & Hlast & Hnull & Hitems) Hi.
  assert (j = i) as -> by congruence.
  split; [done|]. split.
  - unfold aget. by rewrite is_array_index_cell, Hnull.
  - rewrite aset_slice_board by done. rewrite <- Hitems.
    destruct Hb' as (_ & Hp & _). destruct s' as [[its ps] lm]. simpl in *.
    by subst.
Qed.

Lemma replay_prefix st (n : nat) :
  chain_inv st → won_only_last st → (n < length (history st))%nat →
  play (omap lastMove (take (S n) (history st)))
  = Some {| history := take (S n) (history st); currentStep := Z.of_nat n |}.
Proof.
  intros Hinv Hlast. pose proof Hinv as ((_ & Hboards) & H0 & Hchain).
  induction n as [|n IH]; intros Hn.
  - rewrite (take_S_r _ _ _ H0). done.
  - destruct (lookup_lt_is_Some_2 (history st) (S n)) as [s' Hs']; [done|].
    destruct (lookup_lt_is_Some_2 (history st) n) as [s Hs]; [lia|].
    pose proof (Forall_lookup_1 _ _ _ _ Hboards Hs) as Hb.
    pose proof (Forall_lookup_1 _ _ _ _ Hboards Hs') as Hb'.
    pose proof (Hchain n s s' Hs Hs') as Hmove.
    destruct Hmove as (i & Hi & Hlm & Hrest) eqn:Hm. clear Hm.
    destruct (snapshot_of_one_move n s s' i Hb Hb' (Hchain n s s' Hs Hs') Hlm)
      as (_ & Hnull & Hsnap).
    rewrite (take_S_r _ _ _ Hs'), omap_app. simpl. rewrite Hlm. simpl.
    unfold play. rewrite foldl_app. fold (play (omap lastMove (take (S n) (history st)))).
    rewrite IH by lia. simpl.
    set (stn := {| history := take (S n) (history st); currentStep := Z.of_nat n |}).
    assert (Hcur : current stn = Some s).
    { apply current_Some. simpl. split; [lia|].
      rewrite Nat2Z.id. by rewrite lookup_take_lt by lia. }
    rewrite (handleSquareClick_accepted stn s i Hcur).
    + subst stn. simpl. rewrite Nat2Z.id, take_take, Nat.min_id, <- Hsnap.
      do 2 f_equal. lia.
    + apply legal_guard_false; [|done]. apply (Hlast n s); [lia|done].
Qed.

(** X17. The history of a reachable state is a game that can be played
    again: clicking, from the start, the cells that its snapshots name
    as their last moves gives this very history, with the cursor on its
    last snapshot.  A reachable state is such a replay followed by at
    most one jump. *)
Theorem reachable_history_is_the_replay_of_its_moves (st : state) :
  reachable st →
  let moves := omap lastMove (history st) in
  let replayed := {| history := history st;
                     currentStep := Z.of_nat (length (history st)) - 1 |} in
  play moves = Some replayed
  ∧ S (length moves) = length (history st)
  ∧ Forall (λ i, 0 ≤ i ≤ 8) moves
  ∧ st = jumpTo replayed (currentStep st).
Proof.
  intros Hreach moves replayed. subst moves replayed.
  pose proof (reachable_chain_inv _ Hreach) as Hinv.
  pose proof (reachable_won_only_last _ Hreach) as Hlast.
  pose proof Hinv as ((_ & Hboards) & H0 & Hchain).
  pose proof (lookup_lt_Some _ _ _ H0) as Hpos.
  pose proof (replay_prefix st (length (history st) - 1) Hinv Hlast ltac:(lia)) as Hplay.
  replace (S (length (history st) - 1)) with (length (history st)) in Hplay by lia.
  rewrite take_ge in Hplay by lia.
  split_and!.
  - rewrite Hplay. do 2 f_equal. lia.
  - destruct (history st) as [|s0 h] eqn:Hh; [simpl in Hpos; lia|].
    injection H0 as ->. simpl. f_equal.
    assert (Hsome : ∀ (n : nat) s, h !! n = Some s → is_Some (lastMove s)).
    { intros n s Hs.
      destruct (lookup_lt_is_Some_2 (empty_snapshot :: h) n) as [s1 Hs1].
      { apply lookup_lt_Some in Hs. simpl. lia. }
      destruct (Hchain n s1 s Hs1 Hs) as (i & _ & -> & _). eauto. }
    clear -Hsome. induction h as [|s h IH]; [done|]. simpl.
    destruct (Hsome 0%nat s eq_refl) as [i ->]. simpl. f_equal.
    apply IH. intros n s' Hs'. by apply (Hsome (S n)).
  - apply Forall_forall. intros i (s & Hs & Hi)%list_elem_of_omap.
    apply list_elem_of_lookup in Hs as [n Hn].
    destruct n as [|n]; [assert (s = empty_snapshot) as -> by congruence; done|].
    destruct (lookup_lt_is_Some_2 (history st) n) as [s0 Hs0].
    { apply lookup_lt_Some in Hn. lia. }
    destruct (Hchain n s0 s Hs0 Hn) as (j & Hj & Hlm & _). congruence.
  - by destruct st.
Qed.

(** X17 at the won sample state: its moves are 0, 4, 1, 5, 2. *)
Lemma reachable_history_is_the_replay_of_its_moves_witness :
  play [0; 4; 1; 5; 2] = Some state_won.
Proof.
  refine (proj1 (reachable_history_is_the_replay_of_its_moves state_won _)).
  apply (play_reachable [0; 4; 1; 5; 2]); [by_decision|reflexivity].
Defined.
